(** * Audiobook-Maker-AI: playback scheduling, caption timing, crossfade,
      capture and retry policy

    A shallow embedding of the core of [src/App.tsx] and
    [src/services/geminiService.ts].

    Conventions.
    - A JavaScript string is the list of its UTF-16 code units ([jsstring]);
      [String.length] is the length of that list.
    - A JavaScript number that holds a time or a duration is an exact
      rational ([Q]): the values on these paths are finite doubles, and
      rounding is left out of the model.  [=] between numbers means that
      the program computes both sides by the same operations; [==] is
      equality of the values.
    - Mutable refs ([useRef]) are fields of an explicit state record that is
      passed through each operation. *)

From Stdlib Require Import QArith Qminmax String Ascii List NArith ZArith Lia Bool.
From Stdlib Require Import Lqa.
From stdpp Require Import base gmap sets list.
From Equations Require Import Equations.

Import ListNotations.
Local Open Scope Q_scope.

(** ** JavaScript strings *)

Module JsString.

Definition char := N.
Definition jsstring := list char.

(** The code units of an ASCII literal. *)
Definition str (s : string) : jsstring :=
  List.map N_of_ascii (list_ascii_of_string s).

(** ECMAScript WhiteSpace and LineTerminator: the class [\s] of a regular
    expression and the characters that [String.prototype.trim] strips. *)
Definition is_space (c : char) : bool :=
  ((c =? 9) || (c =? 10) || (c =? 11) || (c =? 12) || (c =? 13) || (c =? 32)
   || (c =? 160) || (c =? 5760) || ((8192 <=? c) && (c <=? 8202))
   || (c =? 8232) || (c =? 8233) || (c =? 8239) || (c =? 8287)
   || (c =? 12288) || (c =? 65279))%N.

(** The class [\w] without the unicode flag: [A-Za-z0-9_]. *)
Definition is_word_char (c : char) : bool :=
  (((48 <=? c) && (c <=? 57)) || ((65 <=? c) && (c <=? 90)) || (c =? 95)
   || ((97 <=? c) && (c <=? 122)))%N.

(** The class [[.,!?;:]]. *)
Definition is_punct (c : char) : bool :=
  ((c =? 46) || (c =? 44) || (c =? 33) || (c =? 63) || (c =? 59) || (c =? 58))%N.

(** Longest prefix whose characters satisfy [p], and what follows it. *)
Fixpoint span (p : char -> bool) (s : jsstring) : jsstring * jsstring :=
  match s with
  | [] => ([], [])
  | c :: r => if p c then let '(a, b) := span p r in (c :: a, b) else ([], s)
  end.

Definition trimStart (s : jsstring) : jsstring := snd (span is_space s).
Definition trimEnd (s : jsstring) : jsstring := rev (trimStart (rev s)).
Definition trim (s : jsstring) : jsstring := trimEnd (trimStart s).

(** [s.split(sep)] for a one-character separator string. *)
Fixpoint split_char (sep : char) (s : jsstring) : list jsstring :=
  match s with
  | [] => [[]]
  | c :: r =>
      if (c =? sep)%N then [] :: split_char sep r
      else match split_char sep r with
           | h :: t => (c :: h) :: t
           | [] => [[c]]
           end
  end.

(** A regular expression tried at one position of the subject: it sees the
    character before the position (for [\b]) and the input from the position
    on, and returns the matched text and the input after it. *)
Definition matcher := option char -> jsstring -> option (jsstring * jsstring).

(** [/\s+/] at a position: the maximal run of white space, at least one. *)
Definition match_spaces : matcher := fun _ rest =>
  match span is_space rest with
  | ([], _) => None
  | (m, after) => Some (m, after)
  end.

(** [/\b[.,!?;:]+\b/] at a position.  The first [\b] needs a word character
    just before the run; the greedy run takes every punctuation character;
    the second [\b] needs a word character just after it.  Backtracking to a
    shorter run cannot help: the character after a shorter run is
    punctuation, and two non-word characters have no boundary between them. *)
Definition match_inner_punct : matcher := fun prev rest =>
  match prev with
  | Some b =>
      if is_word_char b then
        match span is_punct rest with
        | ([], _) => None
        | (m, a :: after) => if is_word_char a then Some (m, a :: after) else None
        | (_, []) => None
        end
      else None
  | None => None
  end.

(** [/(\s+|\b[.,!?;:]+\b)/]: the alternatives in order. *)
Definition match_token_sep : matcher := fun prev rest =>
  match match_spaces prev rest with
  | Some r => Some r
  | None => match_inner_punct prev rest
  end.

(** [String.prototype.split] with a regular expression that never matches
    the empty string.  [piece] is the text since the last separator, [prev]
    the character before the current position.  Where the expression matches,
    the piece is emitted, followed by the matched text when the expression
    has a capture group around it, and scanning resumes after the match;
    elsewhere the position advances by one.  The last piece is always
    emitted.  Each turn consumes a character, so a budget of [length s]
    turns reaches the end of [s]. *)
Fixpoint split_loop (m : matcher) (capture : bool) (fuel : nat)
  (prev : option char) (piece rest : jsstring) : list jsstring :=
  match fuel, rest with
  | S fuel', c :: rest' =>
      match m prev rest with
      | Some (matched, after) =>
          piece :: (if capture then [matched] else [])
            ++ split_loop m capture fuel'
                 (List.last (List.map Some matched) prev) [] after
      | None => split_loop m capture fuel' (Some c) (piece ++ [c]) rest'
      end
  | _, _ => [piece]
  end.

End JsString.

(** ** Numbers *)

(** [a < b] on numbers, as a test. *)
Definition Qlt_bool (a b : Q) : bool :=
  match a ?= b with Lt => true | _ => false end.

(** [Array.prototype.map] with a callback that also updates variables of the
    enclosing scope: the callback runs on the elements in index order and
    the variables are threaded from one call to the next. *)
Fixpoint map_accum {A B S : Type} (f : S -> A -> B * S) (s : S) (l : list A)
  : list B * S :=
  match l with
  | [] => ([], s)
  | a :: r =>
      let '(b, s1) := f s a in
      let '(bs, s2) := map_accum f s1 r in
      (b :: bs, s2)
  end.

(** ** Caption timing estimator ([segmentTextForKaraoke]) and lookup *)

Module Karaoke.
Import JsString.

Record WordSegment := mkWord {
  word : jsstring;
  startTime : Q;
  endTime : Q
}.

Record LineSegment := mkLine {
  text : jsstring;
  words : list WordSegment;
  duration : Q;
  relativeStartTime : Q;
  relativeEndTime : Q
}.

(** [w.length > 0] *)
Definition nonempty (w : jsstring) : bool := negb (Nat.eqb (length w) 0).

(** [text.split('\n').filter(line => line.trim().length > 0)] *)
Definition nonblank_lines (t : jsstring) : list jsstring :=
  List.filter (fun line => nonempty (trim line)) (split_char 10%N t).

(** [s.split(re)] for an expression that never matches the empty string. *)
Definition regex_split (m : matcher) (capture : bool) (s : jsstring)
  : list jsstring :=
  split_loop m capture (length s) None [] s.

(** [text.split(/\s+/).filter(w => w.length > 0)] *)
Definition allWords (t : jsstring) : list jsstring :=
  List.filter nonempty (regex_split match_spaces false t).

(** [line.split(/(\s+|\b[.,!?;:]+\b)/g).filter(w => w.length > 0)] *)
Definition wordsInLine (line : jsstring) : list jsstring :=
  List.filter nonempty (regex_split match_token_sep true line).

(** [Math.max(0.1, totalAudiobookDuration / Math.max(totalWords, 1))] *)
Definition baseAverageWordDuration (t : jsstring) (totalAudiobookDuration : Q) : Q :=
  let totalWords := length (allWords t) in
  let effectiveTotalWords := Nat.max totalWords 1 in
  Qmax 0.1 (totalAudiobookDuration / inject_Z (Z.of_nat effectiveTotalWords)).

(** [/^[.,!?;:]+$/.test(word.trim())] *)
Definition isPunctuation (w : jsstring) : bool :=
  let t := trim w in nonempty t && forallb is_punct t.

(** [/\s+/.test(word)] *)
Definition hasSpace (w : jsstring) : bool := existsb is_space w.

Definition estimatedWordDuration (base : Q) (w : jsstring) : Q :=
  if isPunctuation w then 0.25
  else if hasSpace w then 0.08
  else Qmax 0.08 (inject_Z (Z.of_nat (length w)) * 0.09 + base / 2).

(** The callback of the inner [map]; the threaded pair is
    [(wordTimeOffset, lineDuration)]. *)
Definition word_step (base : Q) (st : Q * Q) (w : jsstring)
  : WordSegment * (Q * Q) :=
  let '(wordTimeOffset, lineDuration) := st in
  let d := estimatedWordDuration base w in
  (mkWord (trim w) wordTimeOffset (wordTimeOffset + d),
   (wordTimeOffset + d, lineDuration + d)).

(** The callback of the outer [map]; the threaded value is
    [overallTimeOffset]. *)
Definition line_step (base : Q) (overallTimeOffset : Q) (line : jsstring)
  : LineSegment * Q :=
  let '(wordSegments, (_, lineDuration)) :=
    map_accum (word_step base) (0, 0) (wordsInLine line) in
  (mkLine (trim line) wordSegments lineDuration overallTimeOffset
          (overallTimeOffset + lineDuration),
   overallTimeOffset + lineDuration).

Definition segmentTextForKaraoke (t : jsstring) (totalAudiobookDuration : Q)
  : list LineSegment :=
  let lines := nonblank_lines t in
  if Nat.eqb (length lines) 0 then []
  else
    let base := baseAverageWordDuration t totalAudiobookDuration in
    fst (map_accum (line_step base) 0 lines).

(** The lookup of the caption overlay in [drawMainVisualizer]: the first
    line with [relativeStartTime <= t < relativeEndTime], then the first
    word of that line in range; an index is [-1] when nothing is found. *)
Fixpoint findWord (timeInLine : Q) (j : Z) (ws : list WordSegment) : Z :=
  match ws with
  | [] => (-1)%Z
  | w :: r =>
      if Qle_bool (startTime w) timeInLine && Qlt_bool timeInLine (endTime w)
      then j
      else findWord timeInLine (j + 1)%Z r
  end.

Fixpoint findLine (currentTime : Q) (i : Z) (ls : list LineSegment) : Z * Z :=
  match ls with
  | [] => ((-1)%Z, (-1)%Z)
  | line :: r =>
      if Qle_bool (relativeStartTime line) currentTime
         && Qlt_bool currentTime (relativeEndTime line)
      then (i, findWord (currentTime - relativeStartTime line) 0%Z (words line))
      else findLine currentTime (i + 1)%Z r
  end.

Definition currentLineAndWord (ls : list LineSegment) (currentTime : Q) : Z * Z :=
  findLine currentTime 0%Z ls.

End Karaoke.

(** ** Playback scheduler and scene state ([App.tsx]) *)

Module Player.

(** An [AudioBuffer], as far as the scheduler looks at it. *)
Record AudioBuffer := mkBuffer {
  buf_duration : Q;
  sampleRate : N;
  numberOfChannels : N
}.

(** An [AudioBufferSourceNode] created by [playAudioBuffer]: its buffer, the
    time passed to [source.start], whether it is still wired to the output
    node, whether [stop] was called on it, and the [isAudiobook] flag its
    [ended] listener closes over. *)
Record SourceNode := mkSource {
  buffer : AudioBuffer;
  startAt : Q;
  connected : bool;
  stopped : bool;
  forAudiobook : bool
}.

Record FadeState := mkFade {
  active : bool;
  fade_startTime : Q;
  fade_duration : Q;
  oldImageUrl : option string;
  newImageUrl : option string
}.

(** An [HTMLImageElement]: the URL it loads and whether loading finished. *)
Record Image := mkImage {
  src : string;
  complete : bool
}.

(** The refs and the pieces of React state that the scheduler and the scene
    crossfade read and write.  [sources] holds every source node created so
    far under its identity; [sourceNodesRef] is the [Set] of the live ones. *)
Record App := mkApp {
  nextStartTimeRef : Q;
  sources : gmap nat SourceNode;
  nextSourceId : nat;
  sourceNodesRef : gset nat;
  isAudiobookPlaying : bool;
  currentHighlightedLineIndex : Z;
  currentHighlightedWordIndex : Z;
  audiobookScrollStartTimeRef : Q;
  lastSceneChangeTimestampRef : Q;
  currentAudiobookSceneIndex : nat;
  audiobookFadeStateRef : option FadeState;
  previousLoadedAudiobookImageRef : option Image;
  currentLoadedAudiobookImageRef : option Image
}.

(** The state of a freshly mounted component. *)
Definition initialApp : App :=
  mkApp 0 ∅ 0 ∅ false (-1) (-1) 0 0 0 None None None.

Definition FADE_DURATION_SECONDS : Q := 1.0.

(** [source.stop(); source.disconnect()] *)
Definition halt (n : SourceNode) : SourceNode :=
  mkSource (buffer n) (startAt n) false true (forAudiobook n).

(** [stopAllAudio]: the loop over [sourceNodesRef.current.values()], then
    [clear()] and the cursor reset. *)
Definition stopAllAudio (a : App) : App :=
  let halted := set_fold (fun id m => alter halt id m) (sources a) (sourceNodesRef a) in
  mkApp 0 halted (nextSourceId a) ∅
        (isAudiobookPlaying a)
        (currentHighlightedLineIndex a) (currentHighlightedWordIndex a)
        (audiobookScrollStartTimeRef a) (lastSceneChangeTimestampRef a)
        (currentAudiobookSceneIndex a) (audiobookFadeStateRef a)
        (previousLoadedAudiobookImageRef a) (currentLoadedAudiobookImageRef a).

(** [urls[i]] is truthy: present and not the empty string. *)
Definition url_at (urls : list string) (i : nat) : option string :=
  match urls !! i with
  | Some u => if String.eqb u "" then None else Some u
  | None => None
  end.

(** [playAudioBuffer(buffer, isAudiobook)] when the audio clock reads
    [currentTime] and the component was rendered with the scene URLs [urls].
    The [resume()] of a suspended context changes none of the fields below. *)
Definition playAudioBuffer (currentTime : Q) (urls : list string)
  (buf : AudioBuffer) (isAudiobook : bool) (a : App) : App :=
  let startTime := Qmax (nextStartTimeRef a) currentTime in
  let id := nextSourceId a in
  let source := mkSource buf startTime true false isAudiobook in
  let cursor := startTime + buf_duration buf in
  let sources' := <[id := source]> (sources a) in
  let live := sourceNodesRef a ∪ {[id]} in
  if isAudiobook then
    mkApp cursor sources' (S id) live
          true 0 0 currentTime currentTime 0 None None
          (match url_at urls (currentAudiobookSceneIndex a) with
           | Some u => Some (mkImage u false)
           | None => currentLoadedAudiobookImageRef a
           end)
  else
    mkApp cursor sources' (S id) live
          (isAudiobookPlaying a)
          (currentHighlightedLineIndex a) (currentHighlightedWordIndex a)
          (audiobookScrollStartTimeRef a) (lastSceneChangeTimestampRef a)
          (currentAudiobookSceneIndex a) (audiobookFadeStateRef a)
          (previousLoadedAudiobookImageRef a) (currentLoadedAudiobookImageRef a).

(** The [ended] listener of the source [id]. *)
Definition sourceEnded (id : nat) (a : App) : App :=
  let live := sourceNodesRef a ∖ {[id]} in
  let audiobook := match sources a !! id with
                   | Some n => forAudiobook n
                   | None => false
                   end in
  if bool_decide (size live = 0%nat) && audiobook then
    mkApp (nextStartTimeRef a) (sources a) (nextSourceId a) live
          false (-1) (-1) 0 0
          (currentAudiobookSceneIndex a) (audiobookFadeStateRef a)
          (previousLoadedAudiobookImageRef a) (currentLoadedAudiobookImageRef a)
  else
    mkApp (nextStartTimeRef a) (sources a) (nextSourceId a) live
          (isAudiobookPlaying a)
          (currentHighlightedLineIndex a) (currentHighlightedWordIndex a)
          (audiobookScrollStartTimeRef a) (lastSceneChangeTimestampRef a)
          (currentAudiobookSceneIndex a) (audiobookFadeStateRef a)
          (previousLoadedAudiobookImageRef a) (currentLoadedAudiobookImageRef a).

(** One submission to the scheduler: the clock reading at the call, the
    chunk and the [isAudiobook] argument. *)
Record Submission := mkSubmission {
  at_time : Q;
  chunk : AudioBuffer;
  asAudiobook : bool
}.

(** Chunks submitted one after the other, as [buffers.forEach(b =>
    playAudioBuffer(b, ...))] and the live session's [onAudioChunk] do. *)
Definition submitAll (urls : list string) (subs : list Submission) (a : App) : App :=
  fold_left (fun a s => playAudioBuffer (at_time s) urls (chunk s) (asAudiobook s) a)
            subs a.

(** The time a source was started at, read back from the node. *)
Definition scheduledStart (a : App) (id : nat) : option Q :=
  startAt <$> sources a !! id.

(** *** Render frame: scene crossfade and caption lookup
    ([drawMainVisualizer], the state it changes) *)

(** What one animation frame reads from outside [App]: the audio clock,
    whether the video branch is taken ([isPlayingVideo] and a video element
    with [readyState >= 2]), the scene URLs, the generated buffers
    ([audiobookPcmBuffersRef]), the caption table and its toggle. *)
Record FrameInput := mkFrame {
  frame_time : Q;
  videoShowing : bool;
  sceneUrls : list string;
  pcmBuffers : list AudioBuffer;
  linesWithTiming : list Karaoke.LineSegment;
  karaokeEnabled : bool
}.

(** [audiobookFadeStateRef.current?.active] *)
Definition fadeActive (a : App) : bool :=
  match audiobookFadeStateRef a with
  | Some f => active f
  | None => false
  end.

Definition set_scene (a : App) (lastChange : Q) (index : nat)
  (fade : option FadeState) (previous current : option Image) : App :=
  mkApp (nextStartTimeRef a) (sources a) (nextSourceId a) (sourceNodesRef a)
        (isAudiobookPlaying a)
        (currentHighlightedLineIndex a) (currentHighlightedWordIndex a)
        (audiobookScrollStartTimeRef a)
        lastChange index fade previous current.

Definition set_highlight (a : App) (line word : Z) : App :=
  mkApp (nextStartTimeRef a) (sources a) (nextSourceId a) (sourceNodesRef a)
        (isAudiobookPlaying a) line word
        (audiobookScrollStartTimeRef a) (lastSceneChangeTimestampRef a)
        (currentAudiobookSceneIndex a) (audiobookFadeStateRef a)
        (previousLoadedAudiobookImageRef a) (currentLoadedAudiobookImageRef a).

(** [audiobookPcmBuffersRef.current.reduce((acc, b) => acc + b.duration, 0)] *)
Definition totalDuration (buffers : list AudioBuffer) : Q :=
  fold_left (fun acc b => acc + buf_duration b) buffers 0.

(** Scene cycling: the trigger of a transition. *)
Definition sceneCycle (f : FrameInput) (a : App) : App :=
  let currentTime := frame_time f in
  let urls := sceneUrls f in
  let totalAudiobookDuration := totalDuration (pcmBuffers f) in
  if Qlt_bool 0 totalAudiobookDuration && (0 <? length urls)%nat then
    let dynamicSceneDuration :=
      totalAudiobookDuration / inject_Z (Z.of_nat (length urls)) in
    let elapsedSinceLastChange := currentTime - lastSceneChangeTimestampRef a in
    if negb (fadeActive a) && (1 <? length urls)%nat then
      if Qle_bool dynamicSceneDuration elapsedSinceLastChange then
        let oldIndex := currentAudiobookSceneIndex a in
        let newIndex := (S oldIndex mod length urls)%nat in
        set_scene a currentTime newIndex
          (Some (mkFade true currentTime FADE_DURATION_SECONDS
                        (urls !! oldIndex) (urls !! newIndex)))
          (currentLoadedAudiobookImageRef a)
          (Some (mkImage (default EmptyString (urls !! newIndex)) false))
      else a
    else a
  else a.

(** The drawing branch without a fade, as far as it changes state: the
    current image is created when there is none and the scene has a URL. *)
Definition sceneStatic (f : FrameInput) (a : App) : App :=
  match currentLoadedAudiobookImageRef a with
  | Some _ => a
  | None =>
      match url_at (sceneUrls f) (currentAudiobookSceneIndex a) with
      | Some u =>
          set_scene a (lastSceneChangeTimestampRef a) (currentAudiobookSceneIndex a)
                    (audiobookFadeStateRef a)
                    (previousLoadedAudiobookImageRef a) (Some (mkImage u false))
      | None => a
      end
  end.

(** The drawing branch: an active fade ends when its progress reaches 1. *)
Definition sceneDraw (f : FrameInput) (a : App) : App :=
  match audiobookFadeStateRef a with
  | Some fadeState =>
      if active fadeState then
        let progress :=
          Qmin 1 ((frame_time f - fade_startTime fadeState) / fade_duration fadeState) in
        if Qle_bool 1 progress then
          set_scene a (lastSceneChangeTimestampRef a) (currentAudiobookSceneIndex a)
                    None None (currentLoadedAudiobookImageRef a)
        else a
      else sceneStatic f a
  | None => sceneStatic f a
  end.

Definition sceneFrame (f : FrameInput) (a : App) : App :=
  if videoShowing f then a
  else if isAudiobookPlaying a && (0 <? length (sceneUrls f))%nat then
    sceneDraw f (sceneCycle f a)
  else a.

(** The caption overlay: the lookup at [currentTime - scrollStart] and the
    two [setCurrentHighlighted...] calls. *)
Definition captionFrame (f : FrameInput) (a : App) : App :=
  if isAudiobookPlaying a && (0 <? length (linesWithTiming f))%nat && karaokeEnabled f then
    let '(currentLineIndex, currentWordIndex) :=
      Karaoke.currentLineAndWord (linesWithTiming f)
        (frame_time f - audiobookScrollStartTimeRef a) in
    set_highlight a currentLineIndex currentWordIndex
  else a.

Definition animate (f : FrameInput) (a : App) : App :=
  captionFrame f (sceneFrame f a).

(** The [load] event of the current scene image. *)
Definition imageLoaded (a : App) : App :=
  match currentLoadedAudiobookImageRef a with
  | Some img =>
      set_scene a (lastSceneChangeTimestampRef a) (currentAudiobookSceneIndex a)
                (audiobookFadeStateRef a) (previousLoadedAudiobookImageRef a)
                (Some (mkImage (src img) true))
  | None => a
  end.

(** What can happen to [App] during a session. *)
Inductive Event :=
| Play (s : Submission) (urls : list string)
| Ended (id : nat)
| StopAll
| Frame (f : FrameInput)
| ImageLoaded.

Definition step (a : App) (e : Event) : App :=
  match e with
  | Play s urls => playAudioBuffer (at_time s) urls (chunk s) (asAudiobook s) a
  | Ended id => sourceEnded id a
  | StopAll => stopAllAudio a
  | Frame f => animate f a
  | ImageLoaded => imageLoaded a
  end.

Definition run (es : list Event) (a : App) : App := fold_left step es a.

End Player.

(** ** Video capture ([startRecordingVideo] and the recorder callbacks) *)

Module Capture.

(** A [Blob]: its bytes and its MIME type. *)
Record Blob := mkBlob {
  bytes : list Byte.byte;
  type : string
}.

Definition size (b : Blob) : nat := length (bytes b).

Record Codec := mkCodec {
  codec_name : string;
  codec_value : string;
  mimeType : string;
  extension : string;
  codecsString : string
}.

Record Resolution := mkResolution {
  res_name : string;
  res_value : string;
  width : N;
  height : N
}.

Record Bitrate := mkBitrate {
  rate_name : string;
  rate_value : string;
  numericValue : N
}.

(** The tables of [constants.ts]; display names are written without
    accents. *)
Definition VIDEO_RESOLUTIONS : list Resolution :=
  [ mkResolution "1080p (1920x1080)" "1080p" 1920 1080;
    mkResolution "720p (1280x720)" "720p" 1280 720;
    mkResolution "480p (854x480)" "480p" 854 480 ].

Definition VIDEO_CODECS : list Codec :=
  [ mkCodec "WebM (VP8/VP9)" "webm" "video/webm" "webm" "vp8,opus";
    mkCodec "MP4 (H.264)" "mp4_h264" "video/mp4" "mp4" "avc1.42001E,mp4a.40.2" ].

Definition VIDEO_BITRATES : list Bitrate :=
  [ mkBitrate "500 kbps (Alacsony)" "500k" 500000;
    mkBitrate "1 Mbps (Kozepes)" "1000k" 1000000;
    mkBitrate "2 Mbps (Ajanlott)" "2000k" 2000000;
    mkBitrate "5 Mbps (Magas)" "5000k" 5000000;
    mkBitrate "10 Mbps (Nagyon Magas)" "10000k" 10000000 ].

(** The type a [Blob] constructor stores (File API): the empty string when
    the requested type has a character outside U+0020..U+007E, otherwise the
    requested type in ASCII lower case. *)
Definition ascii_lower (c : ascii) : ascii :=
  let n := nat_of_ascii c in
  if (65 <=? n)%nat && (n <=? 90)%nat then ascii_of_nat (n + 32) else c.

Definition printable (c : ascii) : bool :=
  let n := nat_of_ascii c in (32 <=? n)%nat && (n <=? 126)%nat.

Definition blob_type (requested : string) : string :=
  let cs := list_ascii_of_string requested in
  if forallb printable cs then string_of_list_ascii (List.map ascii_lower cs)
  else EmptyString.

(** [new Blob(parts, { type })]: the parts' bytes in order. *)
Definition newBlob (parts : list Blob) (requested : string) : Blob :=
  mkBlob (List.concat (List.map bytes parts)) (blob_type requested).

(** The recording session: the configuration found at start and the
    accumulation list [recordedChunksRef]. *)
Record Recording := mkRecording {
  selectedRes : Resolution;
  selectedCodec : Codec;
  selectedBitrateObj : Bitrate;
  recorderMimeType : string;
  recordedChunksRef : list Blob
}.

(** What [startRecordingVideo] finds around it: the canvas and the audio
    destination refs, the two playing flags, and whether the captured
    streams have a video and an audio track. *)
Record Surroundings := mkSurroundings {
  canvasReady : bool;
  destinationReady : bool;
  isPlayingVideo : bool;
  isAudiobookPlaying : bool;
  hasVideoTrack : bool;
  hasAudioTrack : bool
}.

Inductive Failure :=
| NotReady
| NothingPlaying
| InvalidSelection
| NoVideoTrack
| NoAudioTrack
| EmptyCapture.

(** The message [setError] receives, in English. *)
Definition failure_message (e : Failure) : string :=
  match e with
  | NotReady => "Cannot start recording: canvas or audio destination is not ready."
  | NothingPlaying => "Please start a video or an audiobook before recording."
  | InvalidSelection => "Invalid resolution, codec or bitrate selected."
  | NoVideoTrack => "Could not get a video track from the canvas stream."
  | NoAudioTrack => "Could not get an audio track from the audio destination stream."
  | EmptyCapture => "No recorded video data. The recording failed or was too short."
  end.

(** [startRecordingVideo] up to [mediaRecorder.start()]: the guards, the
    reset of the accumulation list, the lookups in the three tables, the
    track checks and the recorder's configuration. *)
Definition startRecordingVideo (env : Surroundings)
  (selectedVideoResolution selectedVideoCodec selectedVideoBitrate : string)
  : Failure + Recording :=
  if negb (canvasReady env) || negb (destinationReady env) then inl NotReady
  else if negb (isPlayingVideo env) && negb (isAudiobookPlaying env) then
    inl NothingPlaying
  else
    match List.find (fun r => String.eqb (res_value r) selectedVideoResolution) VIDEO_RESOLUTIONS,
          List.find (fun c => String.eqb (codec_value c) selectedVideoCodec) VIDEO_CODECS,
          List.find (fun b => String.eqb (rate_value b) selectedVideoBitrate) VIDEO_BITRATES with
    | Some r, Some c, Some b =>
        if negb (hasVideoTrack env) then inl NoVideoTrack
        else if negb (hasAudioTrack env) then inl NoAudioTrack
        else inr (mkRecording r c b (mimeType c ++ "; codecs=" ++ codecsString c) [])
    | _, _, _ => inl InvalidSelection
    end.

(** [ondataavailable]: a chunk is kept when it is not empty. *)
Definition ondataavailable (data : Blob) (r : Recording) : Recording :=
  if (0 <? size data)%nat then
    mkRecording (selectedRes r) (selectedCodec r) (selectedBitrateObj r)
                (recorderMimeType r) (recordedChunksRef r ++ [data])
  else r.

(** [onstop], up to the blob it hands to the save dialog or the download
    link: the empty-capture error, or the assembled blob. *)
Definition onstop (r : Recording) : Failure + Blob :=
  if Nat.eqb (length (recordedChunksRef r)) 0 then inl EmptyCapture
  else inr (newBlob (recordedChunksRef r) (mimeType (selectedCodec r))).

(** A whole session: start, the chunks the recorder emits, stop. *)
Definition record (env : Surroundings) (selectedVideoResolution
  selectedVideoCodec selectedVideoBitrate : string) (emitted : list Blob)
  : Failure + Blob :=
  match startRecordingVideo env selectedVideoResolution selectedVideoCodec
          selectedVideoBitrate with
  | inl e => inl e
  | inr r => onstop (fold_left (fun r d => ondataavailable d r) emitted r)
  end.

End Capture.

(** ** Retry-wrapped synthesis client ([geminiService.ts]) *)

Module Tts.
Import Player.

(** What the client can throw: the missing key of [getGeminiClient], an
    error raised by the service or by decoding, and the fallback after the
    loop. *)
Inductive Error :=
| ApiKeyNotSet
| Upstream (message : string)
| AfterRetries.

(** One call of [generateContentStream] as the client sees it: the chunks
    that arrive, each with the buffer its inline audio decodes to (or none),
    and the error that ends the attempt, if any. *)
Record Attempt := mkAttempt {
  chunks : list (option AudioBuffer);
  failure : option Error
}.

(** The buffers pushed during an attempt. *)
Definition decoded (a : Attempt) : list AudioBuffer := omap id (chunks a).

(** What the caller can observe besides the result: requests sent and
    timers waited for (milliseconds). *)
Inductive Effect :=
| Request (attempt : nat)
| Sleep (ms : Z).

Inductive Completion :=
| Returned (audioBuffers : list AudioBuffer)
| Thrown (e : Error).

(** [getGeminiClient]: the cached client, or a new one when the key is set. *)
Definition getGeminiClient (cached : bool) (API_KEY : option string) : option Error :=
  if cached then None
  else match API_KEY with
       | Some k => if String.eqb k "" then Some ApiKeyNotSet else None
       | None => Some ApiKeyNotSet
       end.

Section Retry.

(** The service: its answer to the request number [n] of this call. *)
Variable service : nat -> Attempt.
Variable maxRetries : nat.

(** The [while (attempts <= maxRetries)] loop.  [audioBuffers] is declared
    before the loop and is shared by all attempts. *)
Equations? attempt_loop (attempts : nat) (audioBuffers : list AudioBuffer)
  (trace : list Effect) : list Effect * Completion
  by wf (S maxRetries - attempts)%nat lt :=
attempt_loop attempts audioBuffers trace with le_gt_dec attempts maxRetries := {
  | right _ := (trace, Thrown AfterRetries);
  | left _ with failure (service attempts) := {
    | None :=
        (trace ++ [Request attempts],
         Returned (audioBuffers ++ decoded (service attempts)));
    | Some error with lt_dec attempts maxRetries := {
      | left _ :=
          attempt_loop (S attempts)
            (audioBuffers ++ decoded (service attempts))
            (trace ++ [Request attempts;
                       Sleep (2 ^ Z.of_nat attempts * 1000)%Z]);
      | right _ := (trace ++ [Request attempts], Thrown error) } } }.
Proof. lia. Qed.

Definition generateTextToSpeech (cached : bool) (API_KEY : option string)
  : list Effect * Completion :=
  match getGeminiClient cached API_KEY with
  | Some e => ([], Thrown e)
  | None => attempt_loop 0 [] []
  end.

End Retry.

(** The default of the [maxRetries] parameter; no caller passes another. *)
Definition defaultMaxRetries : nat := 2.

Definition requests (trace : list Effect) : list nat :=
  omap (fun e => match e with Request n => Some n | Sleep _ => None end) trace.

Definition sleeps (trace : list Effect) : list Z :=
  omap (fun e => match e with Sleep ms => Some ms | Request _ => None end) trace.

End Tts.

(** ** Vocabulary of the statements *)

(** The sum of a list of numbers. *)
Definition Qsum (l : list Q) : Q := fold_right Qplus 0 l.

(** Where the caption timeline ends: the end of its last line, or [0]. *)
Definition timelineEnd (ls : list Karaoke.LineSegment) : Q :=
  from_option Karaoke.relativeEndTime 0 (last ls).

(** Lines laid end to end from [off]: each starts where the one before it
    ended, and ends its own duration later. *)
Inductive EndToEnd : Q -> list Karaoke.LineSegment -> Prop :=
| EndToEnd_nil off : EndToEnd off []
| EndToEnd_cons off l r :
    Karaoke.relativeStartTime l = off ->
    Karaoke.relativeEndTime l = off + Karaoke.duration l ->
    EndToEnd (Karaoke.relativeEndTime l) r ->
    EndToEnd off (l :: r).

(** A matcher is productive when each match is a non-empty prefix of the
    input it was tried on. *)
Definition productive (m : JsString.matcher) : Prop :=
  forall prev rest matched after,
    m prev rest = Some (matched, after) ->
    matched <> [] /\ rest = matched ++ after.

(** Word segments laid end to end from [off] to [fin], each at least 0.08
    seconds long. *)
Inductive WordsEndToEnd : Q -> list Karaoke.WordSegment -> Q -> Prop :=
| WordsEndToEnd_nil off : WordsEndToEnd off [] off
| WordsEndToEnd_cons off w r fin :
    Karaoke.startTime w = off ->
    Karaoke.startTime w + 0.08 <= Karaoke.endTime w ->
    WordsEndToEnd (Karaoke.endTime w) r fin ->
    WordsEndToEnd off (w :: r) fin.

(** A token is a run of white space or holds no white space at all. *)
Definition space_or_spaceless (w : JsString.jsstring) : Prop :=
  forallb JsString.is_space w = true \/ existsb JsString.is_space w = false.

(** The test of the lookup loops: [from <= t && t < to]. *)
Definition within (from to t : Q) : Prop := from <= t /\ t < to.

(** The scheduler's bookkeeping is consistent: every source node in the
    active set exists, is still wired to the output and was not stopped,
    and every source node was created under an identity below the next
    one to be handed out. *)
Definition consistent (a : Player.App) : Prop :=
  (forall id, id ∈ Player.sourceNodesRef a ->
     exists n, Player.sources a !! id = Some n /\
               Player.connected n = true /\ Player.stopped n = false) /\
  (forall id n, Player.sources a !! id = Some n -> (id < Player.nextSourceId a)%nat).

(** ** Renderer: what [drawMainVisualizer] computes for a frame *)

Module Render.
Import Player.

(** [Math.min(1, (currentTime - fadeState.startTime) / fadeState.duration)] *)
Definition fadeProgress (currentTime : Q) (fadeState : FadeState) : Q :=
  Qmin 1 ((currentTime - fade_startTime fadeState) / fade_duration fadeState).

Definition oldImageOpacity (progress : Q) : Q := 1 - progress.
Definition newImageOpacity (progress : Q) : Q := progress.

(** [initialScale + (0.95 - initialScale) * progress] and
    [initialScale + (targetScale - initialScale) * progress] with
    [initialScale = 1.0] and [targetScale = 1.05]. *)
Definition oldImageScale (progress : Q) : Q := 1.0 + (0.95 - 1.0) * progress.
Definition newImageScale (progress : Q) : Q := 1.0 + (1.05 - 1.0) * progress.

(** The two loops over the analyser's byte arrays and the averages. *)
Definition byte_value (b : Byte.byte) : Z := Z.of_N (Byte.to_N b).

Definition totalAmplitude (dataArray : list Byte.byte) : Z :=
  fold_left (fun acc d => (acc + Z.abs (byte_value d - 128))%Z) dataArray 0%Z.

Definition totalFrequency (frequencyDataArray : list Byte.byte) : Z :=
  fold_left (fun acc d => (acc + byte_value d)%Z) frequencyDataArray 0%Z.

Definition avgAmplitude (dataArray : list Byte.byte) : Q :=
  inject_Z (totalAmplitude dataArray) / inject_Z (Z.of_nat (length dataArray)).

Definition avgFrequency (frequencyDataArray : list Byte.byte) : Q :=
  inject_Z (totalFrequency frequencyDataArray)
  / inject_Z (Z.of_nat (length frequencyDataArray)).

(** A CSS colour as the renderer builds it: a fixed hex string or
    [hsl(h, s%, l%)]. *)
Inductive Color :=
| Hex (code : string)
| Hsl (hue saturation lightness : Q).

(** The hue variable and the background colour of a frame. *)
Definition backgroundHue (isDynamicBackgroundEnabled : bool)
  (frequencyDataArray : list Byte.byte) : Q :=
  if isDynamicBackgroundEnabled
  then (avgFrequency frequencyDataArray / 255) * 360
  else 0.

Definition baseBackgroundColor (isDynamicBackgroundEnabled : bool)
  (dataArray frequencyDataArray : list Byte.byte) : Color :=
  if isDynamicBackgroundEnabled then
    Hsl ((avgFrequency frequencyDataArray / 255) * 360)
        (50 + (avgAmplitude dataArray / 128) * 50)
        (20 + (avgAmplitude dataArray / 128) * 10)
  else Hex "#1F2937".

(** The tint over a video frame and over a scene image: opacity and colour. *)
Definition videoTintOpacity (dataArray : list Byte.byte) : Q :=
  0.2 + (avgAmplitude dataArray / 128) * 0.3.

Definition sceneTintOpacity (dataArray : list Byte.byte) : Q :=
  0.1 + (avgAmplitude dataArray / 128) * 0.2.

Definition videoTintColor (frequencyDataArray : list Byte.byte) : Color :=
  Hsl ((avgFrequency frequencyDataArray / 255) * 360 + 180) 70 30.

(** Particles are added when [avgAmplitude > 60] and fewer than 200 live. *)
Definition spawnsParticles (dataArray : list Byte.byte) (particleCount : nat) : bool :=
  Qlt_bool 60 (avgAmplitude dataArray) && (particleCount <? 200)%nat.



(** [drawImageTransform]: the rectangle handed to [drawImage] after the
    context was moved to the canvas centre and scaled. *)
Record DrawRect := mkRect {
  rect_x : Q;
  rect_y : Q;
  rect_width : Q;
  rect_height : Q
}.

Definition drawImageTransform (imgWidth imgHeight canvasWidth canvasHeight : Q)
  : DrawRect :=
  let imgAspectRatio := imgWidth / imgHeight in
  let canvasAspectRatio := canvasWidth / canvasHeight in
  if Qlt_bool canvasAspectRatio imgAspectRatio then
    let drawHeight := canvasHeight in
    let drawWidth := imgAspectRatio * canvasHeight in
    let offsetX := (canvasWidth - drawWidth) / 2 in
    mkRect (offsetX - canvasWidth / 2) (0 - canvasHeight / 2) drawWidth drawHeight
  else
    let drawWidth := canvasWidth in
    let drawHeight := canvasWidth / imgAspectRatio in
    let offsetY := (canvasHeight - drawHeight) / 2 in
    mkRect (0 - canvasWidth / 2) (offsetY - canvasHeight / 2) drawWidth drawHeight.

(** Where the rectangle lands on the canvas under
    [translate(W/2, H/2); scale(s, s)]. *)
Definition onCanvas (canvasWidth canvasHeight scale : Q) (r : DrawRect) : DrawRect :=
  mkRect (canvasWidth / 2 + scale * rect_x r) (canvasHeight / 2 + scale * rect_y r)
         (scale * rect_width r) (scale * rect_height r).

(** The caption window: the indices of the lines shown around the current
    one.  [visibleLines] is 3. *)
Definition visibleLines : Z := 3.

(** [while (l.length < visibleLines && l[0] > 0) l.unshift(l[0] - 1)]; the
    list grows at each turn, so [visibleLines] turns are enough. *)
Fixpoint growFront (fuel : nat) (l : list Z) : list Z :=
  match fuel with
  | O => l
  | S fuel' =>
      match l with
      | first :: _ =>
          if (Z.of_nat (length l) <? visibleLines)%Z && (0 <? first)%Z
          then growFront fuel' ((first - 1)%Z :: l)
          else l
      | [] => l
      end
  end.

(** [while (l.length < visibleLines && l[l.length - 1] < total - 1)
    l.push(l[l.length - 1] + 1)] *)
Fixpoint growBack (fuel : nat) (total : Z) (l : list Z) : list Z :=
  match fuel with
  | O => l
  | S fuel' =>
      match List.last (List.map Some l) None with
      | Some final =>
          if (Z.of_nat (length l) <? visibleLines)%Z && (final <? total - 1)%Z
          then growBack fuel' total (l ++ [(final + 1)%Z])
          else l
      | None => l
      end
  end.

Definition linesToDisplayIndices (currentLineIndex total : Z) : list Z :=
  if (currentLineIndex =? -1)%Z then []
  else
    let startIndex := Z.max 0 (currentLineIndex - visibleLines / 2) in
    let endIndex := Z.min (total - 1) (startIndex + visibleLines - 1) in
    let pushed :=
      List.map (fun k => (startIndex + Z.of_nat k)%Z)
               (List.seq 0 (Z.to_nat (endIndex - startIndex + 1))) in
    growBack (Z.to_nat visibleLines) total
             (growFront (Z.to_nat visibleLines) pushed).

End Render.

(** The whole numbers from [first] on, [count] of them. *)
Definition consecutive (first : Z) (count : nat) : list Z :=
  List.map (fun k => (first + Z.of_nat k)%Z) (List.seq 0 count).

(** ** PCM conversion and MP3 export ([utils/audioUtils.ts]) *)

Module AudioUtils.
Import JsString.

Definition INPUT_AUDIO_SAMPLE_RATE : N := 16000.
Definition OUTPUT_AUDIO_SAMPLE_RATE : N := 24000.
Definition NUM_AUDIO_CHANNELS : nat := 1.

(** The integer part of a number, rounded toward zero. *)
Definition Qtrunc (q : Q) : Z := Z.quot (Qnum q) (Z.pos (Qden q)).

(** What an [Int16Array] element keeps of a number stored in it: the
    integer part, modulo 2^16, read as a signed 16-bit value. *)
Definition toInt16 (q : Q) : Z :=
  let m := (Qtrunc q mod 65536)%Z in
  if (m <? 32768)%Z then m else (m - 65536)%Z.

(** [int16[i] = Math.max(-1, Math.min(1, data[i])) * 0x7FFF] *)
Definition clampSample (x : Q) : Q := Qmax (-1) (Qmin 1 x).
Definition floatToPcm16 (x : Q) : Z := toInt16 (clampSample x * 32767).

(** The two bytes of an [Int16Array] element as a [Uint8Array] over the
    same buffer shows them (little-endian, as on every platform the
    application runs on). *)
Definition int16_bytes (z : Z) : list N :=
  let u := (z mod 65536)%Z in
  [Z.to_N (u mod 256); Z.to_N (u / 256)].

Definition signed16 (u : Z) : Z := if (u <? 32768)%Z then u else (u - 65536)%Z.

(** [new Int16Array(data.buffer)]: the elements of a byte buffer read two
    bytes at a time; a buffer of odd length is refused (RangeError). *)
Fixpoint int16s_of_bytes (bs : list N) : option (list Z) :=
  match bs with
  | [] => Some []
  | lo :: hi :: r =>
      match int16s_of_bytes r with
      | Some l => Some (signed16 (Z.of_N lo + 256 * Z.of_N hi) :: l)
      | None => None
      end
  | [_] => None
  end.

(** [createPcmBlob] up to the call of [btoa]: the samples as 16-bit PCM,
    their bytes, and the binary string with one character per byte. *)
Definition pcmBinary (data : list Q) : jsstring :=
  List.concat (List.map int16_bytes (List.map floatToPcm16 data)).

(** The blob of the live API: base64 data and a MIME type. *)
Record GeminiApiBlob := mkApiBlob {
  blob_data : jsstring;
  blob_mimeType : string
}.

Definition createPcmBlob (btoa : jsstring -> jsstring) (data : list Q) : GeminiApiBlob :=
  mkApiBlob (btoa (pcmBinary data)) "audio/pcm;rate=16000".

(** [decodeBase64] after the call of [atob]: the character codes of the
    binary string, one byte each. *)
Definition decodeBase64 (atob : jsstring -> jsstring) (base64 : jsstring) : list N :=
  List.map (fun code => code) (atob base64).

(** An [AudioBuffer] with its samples. *)
Record PcmBuffer := mkPcm {
  channelData : list (list Q);
  frames : nat;
  pcm_sampleRate : N
}.

Definition duration (b : PcmBuffer) : Q :=
  inject_Z (Z.of_nat (frames b)) / inject_Z (Z.of_N (pcm_sampleRate b)).

(** The buffer as the scheduler sees it. *)
Definition toAudioBuffer (b : PcmBuffer) : Player.AudioBuffer :=
  Player.mkBuffer (duration b) (pcm_sampleRate b) (N.of_nat (length (channelData b))).



(** The encoder of the lamejs library, as the export uses it. *)
Record LameEncoder := mkLame {
  lame_state : Type;
  lame_new : N -> nat -> lame_state;
  encodeBuffer : lame_state -> list Z -> list Byte.byte * lame_state;
  flush : lame_state -> list Byte.byte
}.

Inductive Mp3Error :=
| LameNotLoaded
| EmptyMp3.

Definition MAX_CHUNK_SIZE : nat := 1152.

(** [buffer.getChannelData(0)] *)
Definition channel0 (b : PcmBuffer) : list Q := List.nth 0 (channelData b) [].

(** The combined buffer converted to 16-bit PCM. *)
Definition pcm16 (audioBuffers : list PcmBuffer) : list Z :=
  List.map floatToPcm16 (List.concat (List.map channel0 audioBuffers)).

(** [for (i = 0; i < pcm16.length; i += size) ... pcm16.subarray(i, i + size)]:
    each turn takes up to [size] samples, so [length l] turns reach the end. *)
Fixpoint subarrays (fuel size : nat) (l : list Z) : list (list Z) :=
  match fuel with
  | O => []
  | S fuel' =>
      match l with
      | [] => []
      | _ :: _ => firstn size l :: subarrays fuel' size (skipn size l)
      end
  end.

Definition mp3Frames (audioBuffers : list PcmBuffer) : list (list Z) :=
  let samples := pcm16 audioBuffers in
  subarrays (length samples) MAX_CHUNK_SIZE samples.

(** The encoding loop: the encoder's outputs that are not empty, in order. *)
Fixpoint encodeFrames (lame : LameEncoder) (st : lame_state lame)
  (chunks : list (list Z)) : list (list Byte.byte) * lame_state lame :=
  match chunks with
  | [] => ([], st)
  | c :: r =>
      let '(mp3buf, st1) := encodeBuffer lame st c in
      let '(rest, st2) := encodeFrames lame st1 r in
      (if (0 <? length mp3buf)%nat then mp3buf :: rest else rest, st2)
  end.

Definition encodePCMToMP3 (Lame : option LameEncoder)
  (audioBuffers : list PcmBuffer) (sampleRate : N) (numChannels : nat)
  : Mp3Error + Capture.Blob :=
  match Lame with
  | None => inl LameNotLoaded
  | Some lame =>
      let '(encoded, st) :=
        encodeFrames lame (lame_new lame sampleRate numChannels)
                     (mp3Frames audioBuffers) in
      let mp3buf := flush lame st in
      let mp3data := if (0 <? length mp3buf)%nat then encoded ++ [mp3buf] else encoded in
      let encodedByteCount := length (List.concat mp3data) in
      if Nat.eqb encodedByteCount 0 then inl EmptyMp3
      else inr (Capture.newBlob (List.map (fun b => Capture.mkBlob b "") mp3data)
                                "audio/mpeg")
  end.

End AudioUtils.

(** ** Live transcription ([connectLiveSession] and its callback in
    [startLiveConversation]) *)

Module Live.
Import JsString.

















End Live.


(** What the encoder returns for each frame it is given, empty outputs
    included, and the state it is left in. *)
Fixpoint encoderOutputs (lame : AudioUtils.LameEncoder)
  (st : AudioUtils.lame_state lame) (chunks : list (list Z))
  : list (list Byte.byte) * AudioUtils.lame_state lame :=
  match chunks with
  | [] => ([], st)
  | c :: r =>
      let '(out, st1) := AudioUtils.encodeBuffer lame st c in
      let '(outs, st2) := encoderOutputs lame st1 r in
      (out :: outs, st2)
  end.

(** A toy encoder: one byte per sample, nothing held back. *)
Definition byteEncoder : AudioUtils.LameEncoder :=
  AudioUtils.mkLame unit (fun _ _ => tt)
    (fun _ c => (List.map (fun _ => Byte.x01) c, tt))
    (fun _ => []).

(** What the retry client does up to and including its request number [k]
    when the requests before it failed: a request and a wait of
    [2^i] seconds for each [i < k], then request [k]. *)
Definition retryTrace (k : nat) : list Tts.Effect :=
  List.flat_map (fun i => [Tts.Request i; Tts.Sleep (2 ^ Z.of_nat i * 1000)%Z])
                (List.seq 0 k)
  ++ [Tts.Request k].

(** The sum of a list of integers. *)
Definition Zsum (l : list Z) : Z := fold_right Z.add 0%Z l.

(** * Properties *)

(** ** JavaScript strings *)

Section StringFacts.
Import JsString.

Lemma span_app p s : fst (span p s) ++ snd (span p s) = s.
Proof.
  induction s as [|c r IH]; simpl; [reflexivity|].
  destruct (p c); simpl; [|reflexivity].
  destruct (span p r) as [a b]; simpl in *. now rewrite IH.
Qed.

Lemma span_all p s : forallb p s = true -> span p s = (s, []).
Proof.
  induction s as [|c r IH]; simpl; [reflexivity|].
  intros H. apply andb_prop in H as [Hc Hr].
  rewrite Hc, (IH Hr). reflexivity.
Qed.

Lemma trim_blank s : forallb is_space s = true -> trim s = [].
Proof.
  intros H. unfold trim, trimEnd, trimStart.
  rewrite (span_all _ _ H). reflexivity.
Qed.

Lemma split_char_blank sep s :
  forallb is_space s = true ->
  Forall (fun piece => forallb is_space piece = true) (split_char sep s).
Proof.
  induction s as [|c r IH]; simpl; intros H.
  - repeat constructor.
  - apply andb_prop in H as [Hc Hr]. specialize (IH Hr).
    destruct (c =? sep)%N.
    + constructor; [reflexivity | exact IH].
    + destruct (split_char sep r) as [|h t].
      * repeat constructor. simpl. now rewrite Hc.
      * inversion IH; subst. constructor; [|assumption].
        simpl. rewrite Hc. assumption.
Qed.

Lemma match_spaces_productive : productive match_spaces.
Proof.
  intros prev rest matched after. unfold match_spaces.
  pose proof (span_app is_space rest) as E.
  destruct (span is_space rest) as [[|x m] a]; [discriminate|].
  intros [= <- <-]. split; [discriminate | now rewrite <- E].
Qed.

Lemma match_inner_punct_productive : productive match_inner_punct.
Proof.
  intros prev rest matched after. unfold match_inner_punct.
  destruct prev as [b|]; [|discriminate].
  destruct (is_word_char b); [|discriminate].
  pose proof (span_app is_punct rest) as E.
  destruct (span is_punct rest) as [[|x m] [|a r]]; try discriminate.
  destruct (is_word_char a); [|discriminate].
  intros [= <- <-]. split; [discriminate | now rewrite <- E].
Qed.

Lemma match_token_sep_productive : productive match_token_sep.
Proof.
  intros prev rest matched after. unfold match_token_sep.
  destruct (match_spaces prev rest) as [[m a]|] eqn:E.
  - intros [= <- <-]. exact (match_spaces_productive _ _ _ _ E).
  - apply match_inner_punct_productive.
Qed.

(** With a capture group around the expression, [split] loses no
    character: the pieces and separators, in order, spell the input. *)
Lemma split_loop_concat m fuel prev piece rest :
  productive m -> (length rest <= fuel)%nat ->
  List.concat (split_loop m true fuel prev piece rest) = piece ++ rest.
Proof.
  intros Hm. revert prev piece rest.
  induction fuel as [|fuel IH]; intros prev piece rest Hlen.
  - destruct rest; [|simpl in Hlen; lia]. reflexivity.
  - destruct rest as [|c rest']; [reflexivity|].
    cbn [split_loop].
    destruct (m prev (c :: rest')) as [[matched after]|] eqn:E.
    + destruct (Hm _ _ _ _ E) as [Hne Heq].
      cbn [List.concat List.app]. rewrite IH.
      * simpl. now rewrite Heq.
      * assert (length (c :: rest') = length matched + length after)%nat
          by (rewrite Heq; apply List.length_app).
        destruct matched; [congruence|]. simpl in *. lia.
    + rewrite IH by (simpl in Hlen; lia).
      now rewrite <- List.app_assoc.
Qed.

End StringFacts.

(** ** Caption timing estimator *)

Section KaraokeFacts.
Import JsString Karaoke.

Lemma Qmax_lower a b : a <= Qmax a b.
Proof. apply Q.le_max_l. Qed.

(** Every token is given a positive duration. *)
Lemma estimatedWordDuration_pos base w : 0 < estimatedWordDuration base w.
Proof.
  unfold estimatedWordDuration.
  destruct (isPunctuation w); [reflexivity|].
  destruct (hasSpace w); [reflexivity|].
  eapply Qlt_le_trans; [|apply Qmax_lower]. reflexivity.
Qed.

(** The inner [map]: both accumulators grow by the same amounts, and each
    token adds a positive amount. *)
Lemma word_steps_duration base ws off dur :
  let '(_, (off', dur')) := map_accum (word_step base) (off, dur) ws in
  dur <= dur' /\ (ws <> [] -> dur < dur').
Proof.
  revert off dur. induction ws as [|w r IH]; intros off dur; simpl.
  - split; [apply Qle_refl | congruence].
  - specialize (IH (off + estimatedWordDuration base w)
                   (dur + estimatedWordDuration base w)).
    destruct (map_accum _ _ r) as [segs [off' dur']].
    destruct IH as [IH _].
    pose proof (estimatedWordDuration_pos base w) as Hpos.
    assert (dur < dur + estimatedWordDuration base w) as Hlt.
    { rewrite <- (Qplus_0_r dur) at 1. apply Qplus_lt_r. exact Hpos. }
    split.
    + apply Qlt_le_weak. eapply Qlt_le_trans; eauto.
    + intros _. eapply Qlt_le_trans; eauto.
Qed.

(** The tokens of a line spell the line. *)
Lemma wordsInLine_concat line : List.concat (wordsInLine line) = line.
Proof.
  unfold wordsInLine, regex_split.
  transitivity (List.concat (split_loop match_token_sep true (length line) None [] line)).
  - generalize (split_loop match_token_sep true (length line) None [] line).
    induction l as [|x l IH]; [reflexivity|].
    simpl. destruct x; simpl; [exact IH | now rewrite IH].
  - now rewrite split_loop_concat by (auto using match_token_sep_productive).
Qed.

Lemma wordsInLine_nonempty line : line <> [] -> wordsInLine line <> [].
Proof.
  intros Hne E. apply Hne. rewrite <- (wordsInLine_concat line), E. reflexivity.
Qed.

Lemma nonblank_lines_nonempty t line :
  In line (nonblank_lines t) -> line <> [].
Proof.
  unfold nonblank_lines. intros H. apply List.filter_In in H as [_ H].
  intros ->. discriminate H.
Qed.

(** One call of the outer callback. *)
Lemma line_step_spec base off line :
  let '(l, off') := line_step base off line in
  relativeStartTime l = off /\
  relativeEndTime l = off + duration l /\
  off' = relativeEndTime l /\
  0 <= duration l /\
  (line <> [] -> 0 < duration l).
Proof.
  unfold line_step.
  pose proof (word_steps_duration base (wordsInLine line) 0 0) as H.
  destruct (map_accum (word_step base) (0, 0) (wordsInLine line))
    as [segs [o d]].
  destruct H as [H1 H2]. simpl.
  repeat split; auto using wordsInLine_nonempty.
Qed.

(** The outer [map] lays the lines end to end from the offset it starts
    with, and returns the offset where the last one ends. *)
Lemma line_steps_end_to_end base lines off :
  EndToEnd off (fst (map_accum (line_step base) off lines)).
Proof.
  revert off. induction lines as [|line r IH]; intros off; simpl.
  - constructor.
  - pose proof (line_step_spec base off line) as H.
    destruct (line_step base off line) as [l off'].
    destruct H as (Hs & He & Ho & _). subst off'.
    specialize (IH (relativeEndTime l)).
    destruct (map_accum (line_step base) (relativeEndTime l) r) as [ls o].
    simpl in *. constructor; assumption.
Qed.

Lemma line_steps_positive base lines off :
  Forall (fun line => line <> []) lines ->
  Forall (fun l => 0 < duration l) (fst (map_accum (line_step base) off lines)).
Proof.
  revert off. induction lines as [|line r IH]; intros off Hne; simpl.
  - constructor.
  - inversion Hne; subst.
    pose proof (line_step_spec base off line) as H.
    destruct (line_step base off line) as [l off'].
    destruct H as (_ & _ & _ & _ & Hpos).
    specialize (IH off' ltac:(assumption)).
    destruct (map_accum (line_step base) off' r) as [ls o].
    simpl in *. constructor; auto.
Qed.

Lemma segment_end_to_end t D : EndToEnd 0 (segmentTextForKaraoke t D).
Proof.
  unfold segmentTextForKaraoke.
  destruct (Nat.eqb _ 0); [constructor | apply line_steps_end_to_end].
Qed.

Lemma segment_positive t D :
  Forall (fun l => 0 < duration l) (segmentTextForKaraoke t D).
Proof.
  unfold segmentTextForKaraoke.
  destruct (Nat.eqb _ 0); [constructor|].
  apply line_steps_positive. apply List.Forall_forall.
  intros line. apply nonblank_lines_nonempty.
Qed.

Lemma EndToEnd_head off ls l :
  EndToEnd off ls -> ls !! 0%nat = Some l -> relativeStartTime l = off.
Proof. intros H E. destruct H; simpl in E; congruence. Qed.

Lemma EndToEnd_lookup off ls i l :
  EndToEnd off ls -> ls !! i = Some l ->
  relativeEndTime l = relativeStartTime l + duration l /\
  EndToEnd (relativeEndTime l) (drop (S i) ls).
Proof.
  intros H. revert i. induction H as [off|off x r Hs He Hr IH]; intros i E.
  - discriminate.
  - destruct i as [|i]; simpl in E.
    + injection E as ->. rewrite Hs. split; assumption.
    + apply IH. exact E.
Qed.

Lemma EndToEnd_adjacent off ls i a b :
  EndToEnd off ls -> ls !! i = Some a -> ls !! S i = Some b ->
  relativeEndTime a = relativeStartTime b.
Proof.
  intros H Ea Eb.
  destruct (EndToEnd_lookup _ _ _ _ H Ea) as [_ Hrest].
  symmetry. eapply EndToEnd_head; [exact Hrest|].
  rewrite lookup_drop. now replace (S i + 0)%nat with (S i) by lia.
Qed.

Lemma EndToEnd_sum off ls :
  EndToEnd off ls ->
  off + Qsum (List.map duration ls) == from_option relativeEndTime off (last ls).
Proof.
  induction 1 as [off|off l r Hs He Hr IH]; simpl.
  - apply Qplus_0_r.
  - rewrite Qplus_assoc, <- He, IH.
    destruct r as [|x r]; [reflexivity|].
    rewrite last_cons_cons. simpl.
    destruct (last (x :: r)) eqn:E; [reflexivity|].
    apply last_None in E. discriminate.
Qed.

End KaraokeFacts.

Section KaraokeClaims.
Import JsString Karaoke.

(** C3.  For every text and every total duration, the lines of the
    estimator's output follow one another without gap or overlap: the first
    line starts at 0, every line ends its own positive duration after it
    starts, and the end of line [i] is the start of line [i+1]. *)
Theorem C3_lines_partition_timeline (t : jsstring) (D : Q) (i : nat)
  (a : LineSegment) :
  segmentTextForKaraoke t D !! i = Some a ->
  (i = 0%nat -> relativeStartTime a = 0) /\
  relativeEndTime a = relativeStartTime a + duration a /\
  relativeStartTime a < relativeEndTime a /\
  (forall b, segmentTextForKaraoke t D !! S i = Some b ->
             relativeEndTime a = relativeStartTime b).
Proof.
  intros Ha.
  pose proof (segment_end_to_end t D) as Hchain.
  destruct (EndToEnd_lookup _ _ _ _ Hchain Ha) as [Hend _].
  assert (0 < duration a) as Hpos.
  { pose proof (segment_positive t D) as Hall.
    rewrite List.Forall_forall in Hall. apply Hall.
    apply list_elem_of_In. eapply list_elem_of_lookup_2. exact Ha. }
  repeat split.
  - intros ->. eapply EndToEnd_head; eauto.
  - exact Hend.
  - rewrite Hend. rewrite <- (Qplus_0_r (relativeStartTime a)) at 1.
    apply Qplus_lt_r. exact Hpos.
  - intros b Hb. eapply EndToEnd_adjacent; eauto.
Qed.

(** Two lines, ["ab"] and ["c d"], over 2 seconds. *)
Lemma C3_lines_partition_timeline_witness :
  exists a b,
    segmentTextForKaraoke (str "ab" ++ [10%N] ++ str "c d") 2 !! 0%nat = Some a /\
    segmentTextForKaraoke (str "ab" ++ [10%N] ++ str "c d") 2 !! 1%nat = Some b /\
    relativeStartTime a = 0 /\
    relativeStartTime a < relativeEndTime a /\
    relativeEndTime a = relativeStartTime b.
Proof.
  eexists. eexists.
  split; [vm_compute; reflexivity|].
  split; [vm_compute; reflexivity|].
  pose proof (C3_lines_partition_timeline
                (str "ab" ++ [10%N] ++ str "c d") 2 0 _ eq_refl) as H.
  destruct H as (H0 & _ & Hlt & Hadj).
  split; [apply H0; reflexivity|].
  split; [exact Hlt|].
  apply Hadj. vm_compute. reflexivity.
Defined.

(** C2, as stated, fails: for the text ["Hi"] and a total duration of 4
    seconds the only line lasts 2.18 seconds, so neither the sum of the line
    durations nor the end of the last line is 4. *)
Lemma C2_sum_is_not_total_duration :
  ~ (Qsum (List.map duration (segmentTextForKaraoke (str "Hi") 4)) == 4) /\
  ~ (timelineEnd (segmentTextForKaraoke (str "Hi") 4) == 4) /\
  Qsum (List.map duration (segmentTextForKaraoke (str "Hi") 4)) == 2.18.
Proof.
  split; [|split].
  - intros H. vm_compute in H. discriminate H.
  - intros H. vm_compute in H. discriminate H.
  - vm_compute. reflexivity.
Qed.

(** C2, amended.  For every text and every total duration, the durations of
    the returned lines sum to the end time of the last line (0 when no line
    is returned): the timeline is as long as the token estimates add up to. *)
Theorem C2_durations_sum_to_timeline_end (t : jsstring) (D : Q) :
  Qsum (List.map duration (segmentTextForKaraoke t D))
  == timelineEnd (segmentTextForKaraoke t D).
Proof.
  pose proof (EndToEnd_sum _ _ (segment_end_to_end t D)) as H.
  rewrite Qplus_0_l in H. exact H.
Qed.

(** C4, at the input ["Hello world."].  The line splits into ["Hello"],
    [" "] and ["world."]: the full stop stays inside the last token, which
    is timed as a word of six characters and not as a word followed by a
    punctuation pause. *)
Theorem C4_trailing_punctuation_stays_in_word (base : Q) :
  wordsInLine (str "Hello world.") = [str "Hello"; str " "; str "world."] /\
  isPunctuation (str "world.") = false /\
  estimatedWordDuration base (str "world.")
  = Qmax 0.08 (inject_Z 6 * 0.09 + base / 2).
Proof. repeat split. Qed.

(** Punctuation between two word characters is split off and gets the
    punctuation pause; so does a run of punctuation that stands alone. *)
Example inner_punctuation_is_separated :
  wordsInLine (str "a,b") = [str "a"; str ","; str "b"] /\
  wordsInLine (str "wait ... what") = [str "wait"; str " "; str "..."; str " "; str "what"] /\
  estimatedWordDuration 1 (str ",") = 0.25 /\
  estimatedWordDuration 1 (str "...") = 0.25 /\
  estimatedWordDuration 1 (str " ") = 0.08.
Proof. repeat split. Qed.

(** C5, as stated, fails: the text ["Hello world. Bye now."] has no line
    break, so the estimator does not return two lines. *)
Lemma C5_not_two_lines_summing_to_four :
  ~ (length (segmentTextForKaraoke (str "Hello world. Bye now.") 4) = 2%nat /\
     Qsum (List.map duration (segmentTextForKaraoke (str "Hello world. Bye now.") 4)) == 4 /\
     currentLineAndWord (segmentTextForKaraoke (str "Hello world. Bye now.") 4) 0
     = (0%Z, 0%Z)).
Proof. intros [H _]. vm_compute in H. discriminate H. Qed.

(** C5, amended.  For the text ["Hello world. Bye now."] and a total
    duration of 4 seconds the estimator returns exactly one line, whose
    duration is not 4 seconds, and the lookup at time 0 gives line 0 and
    word 0. *)
Theorem C5_hello_world_single_line :
  length (segmentTextForKaraoke (str "Hello world. Bye now.") 4) = 1%nat /\
  ~ (Qsum (List.map duration (segmentTextForKaraoke (str "Hello world. Bye now.") 4)) == 4) /\
  currentLineAndWord (segmentTextForKaraoke (str "Hello world. Bye now.") 4) 0
  = (0%Z, 0%Z).
Proof.
  split; [vm_compute; reflexivity|].
  split; [|vm_compute; reflexivity].
  intros H. vm_compute in H. discriminate H.
Qed.

(** C10.  A text made of white space only (the empty text included) has no
    non-blank line: for every total duration the estimator returns no line,
    and the lookup then finds neither a line nor a word at any time. *)
Theorem C10_blank_text_has_no_lines (t : jsstring) (D : Q) :
  forallb is_space t = true ->
  segmentTextForKaraoke t D = [] /\
  forall time, currentLineAndWord (segmentTextForKaraoke t D) time = ((-1)%Z, (-1)%Z).
Proof.
  intros Hblank.
  assert (nonblank_lines t = []) as E.
  { unfold nonblank_lines.
    pose proof (split_char_blank 10%N t Hblank) as Hall.
    induction Hall as [|piece r Hp _ IH]; [reflexivity|].
    simpl. rewrite (trim_blank _ Hp). exact IH. }
  assert (segmentTextForKaraoke t D = []) as E'.
  { unfold segmentTextForKaraoke. rewrite E. reflexivity. }
  split; [exact E'|]. intros time. rewrite E'. reflexivity.
Qed.

(** A space, a line break and a tab. *)
Lemma C10_blank_text_has_no_lines_witness :
  segmentTextForKaraoke [32%N; 10%N; 9%N] 4 = [] /\
  currentLineAndWord (segmentTextForKaraoke [32%N; 10%N; 9%N] 4) 1 = ((-1)%Z, (-1)%Z).
Proof.
  destruct (C10_blank_text_has_no_lines [32%N; 10%N; 9%N] 4 eq_refl) as [H1 H2].
  split; [exact H1 | apply H2].
Defined.

End KaraokeClaims.

(** ** Playback scheduler *)

Section SchedulerFacts.
Import Player.

(** [Math.max] returns its first argument unless the second is larger. *)
Lemma Qmax_first x y : y <= x -> Qmax x y = x.
Proof.
  intros H. unfold Qmax, GenericMinMax.gmax.
  destruct (x ?= y) eqn:E; try reflexivity.
  apply Qlt_alt in E. exfalso. eapply Qlt_not_le; eauto.
Qed.

Lemma Qmax_second x y : x <= y -> Qmax x y == y.
Proof. apply Q.max_r. Qed.

Lemma play_cursor now urls buf flag a :
  nextStartTimeRef (playAudioBuffer now urls buf flag a)
  = Qmax (nextStartTimeRef a) now + buf_duration buf.
Proof. unfold playAudioBuffer. destruct flag; reflexivity. Qed.

Lemma play_nextSourceId now urls buf flag a :
  nextSourceId (playAudioBuffer now urls buf flag a) = S (nextSourceId a).
Proof. unfold playAudioBuffer. destruct flag; reflexivity. Qed.

Lemma play_sources now urls buf flag a :
  sources (playAudioBuffer now urls buf flag a)
  = <[nextSourceId a := mkSource buf (Qmax (nextStartTimeRef a) now) true false flag]>
      (sources a).
Proof. unfold playAudioBuffer. destruct flag; reflexivity. Qed.

Lemma play_live now urls buf flag a :
  sourceNodesRef (playAudioBuffer now urls buf flag a)
  = sourceNodesRef a ∪ {[nextSourceId a]}.
Proof. unfold playAudioBuffer. destruct flag; reflexivity. Qed.

(** The source a call creates is started at [max(cursor, now)]. *)
Lemma play_scheduledStart now urls buf flag a :
  scheduledStart (playAudioBuffer now urls buf flag a) (nextSourceId a)
  = Some (Qmax (nextStartTimeRef a) now).
Proof.
  unfold scheduledStart. rewrite play_sources, lookup_insert_eq. reflexivity.
Qed.

Lemma submitAll_cons urls s subs a :
  submitAll urls (s :: subs) a
  = submitAll urls subs
      (playAudioBuffer (at_time s) urls (chunk s) (asAudiobook s) a).
Proof. reflexivity. Qed.

Lemma submitAll_nextSourceId urls subs a :
  (nextSourceId a <= nextSourceId (submitAll urls subs a))%nat.
Proof.
  revert a. induction subs as [|s r IH]; intros a; [apply Nat.le_refl|].
  rewrite submitAll_cons. etransitivity; [|apply IH].
  rewrite play_nextSourceId. lia.
Qed.

(** Later submissions leave the sources created before them alone. *)
Lemma submitAll_sources_below urls subs a id :
  (id < nextSourceId a)%nat ->
  sources (submitAll urls subs a) !! id = sources a !! id.
Proof.
  revert a. induction subs as [|s r IH]; intros a Hlt; [reflexivity|].
  rewrite submitAll_cons, IH by (rewrite play_nextSourceId; lia).
  rewrite play_sources. apply lookup_insert_ne. lia.
Qed.

Lemma submitAll_first urls s subs a :
  scheduledStart (submitAll urls (s :: subs) a) (nextSourceId a)
  = Some (Qmax (nextStartTimeRef a) (at_time s)).
Proof.
  rewrite submitAll_cons. unfold scheduledStart.
  rewrite submitAll_sources_below by (rewrite play_nextSourceId; lia).
  apply play_scheduledStart.
Qed.

(** Two consecutive submissions: the first source starts no earlier than
    the clock reading of its call, and the second starts at the later of the
    first one's end and the clock reading of the second call. *)
Lemma submitAll_consecutive urls subs a i s1 s2 :
  subs !! i = Some s1 -> subs !! S i = Some s2 ->
  exists t1,
    at_time s1 <= t1 /\
    scheduledStart (submitAll urls subs a) (nextSourceId a + i) = Some t1 /\
    scheduledStart (submitAll urls subs a) (nextSourceId a + S i)
    = Some (Qmax (t1 + buf_duration (chunk s1)) (at_time s2)).
Proof.
  revert a i. induction subs as [|s r IH]; intros a i H1 H2; [discriminate|].
  destruct i as [|i].
  - injection H1 as ->. destruct r as [|s' r']; [discriminate|].
    injection H2 as ->.
    exists (Qmax (nextStartTimeRef a) (at_time s1)). split; [|split].
    + apply Q.le_max_r.
    + rewrite Nat.add_0_r. apply submitAll_first.
    + rewrite submitAll_cons.
      replace (nextSourceId a + 1)%nat
        with (nextSourceId (playAudioBuffer (at_time s1) urls (chunk s1)
                                            (asAudiobook s1) a))
        by (rewrite play_nextSourceId; lia).
      rewrite submitAll_first, play_cursor. reflexivity.
  - rewrite submitAll_cons.
    destruct (IH (playAudioBuffer (at_time s) urls (chunk s) (asAudiobook s) a)
                 i H1 H2) as (t1 & Ht & E1 & E2).
    rewrite play_nextSourceId in E1, E2.
    exists t1. split; [exact Ht|]. split.
    + now replace (nextSourceId a + S i)%nat with (S (nextSourceId a) + i)%nat by lia.
    + now replace (nextSourceId a + S (S i))%nat
        with (S (nextSourceId a) + S i)%nat by lia.
Qed.

(** Chunks handed over in one go ([buffers.forEach(b => playAudioBuffer(b,
    true))] reads the same clock value at each call) play back to back: a
    chunk submitted no later than its predecessor was, after a predecessor of
    non-negative duration, starts exactly where the predecessor ends. *)
Lemma submitAll_back_to_back urls subs a i s1 s2 :
  subs !! i = Some s1 -> subs !! S i = Some s2 ->
  at_time s2 <= at_time s1 -> 0 <= buf_duration (chunk s1) ->
  exists t1,
    scheduledStart (submitAll urls subs a) (nextSourceId a + i) = Some t1 /\
    scheduledStart (submitAll urls subs a) (nextSourceId a + S i)
    = Some (t1 + buf_duration (chunk s1)).
Proof.
  intros H1 H2 Hclock Hd.
  destruct (submitAll_consecutive urls subs a i s1 s2 H1 H2) as (t1 & Ht & E1 & E2).
  exists t1. split; [exact E1|]. rewrite E2. f_equal.
  apply Qmax_first.
  eapply Qle_trans; [exact Hclock|]. eapply Qle_trans; [exact Ht|].
  rewrite <- (Qplus_0_r t1) at 1. apply Qplus_le_r. exact Hd.
Qed.

(** What [stopAllAudio] does to each source node. *)
Lemma stopAll_sources a id :
  sources (stopAllAudio a) !! id
  = if decide (id ∈ sourceNodesRef a) then halt <$> sources a !! id
    else sources a !! id.
Proof.
  unfold stopAllAudio. cbn [sources]. revert id.
  pose (P := fun (m : gmap nat SourceNode) (X : gset nat) =>
               forall id, m !! id
                 = if decide (id ∈ X) then halt <$> sources a !! id
                   else sources a !! id).
  change (P (set_fold (fun id m => alter halt id m) (sources a) (sourceNodesRef a))
            (sourceNodesRef a)).
  apply set_fold_ind_L; unfold P; clear P.
  - intros id. destruct (decide (id ∈ ∅)) as [H|_]; [set_solver|reflexivity].
  - intros x X m Hx IH id.
    destruct (decide (x = id)) as [->|Hne].
    + rewrite lookup_alter_eq, IH.
      destruct (decide (id ∈ X)); [contradiction|].
      destruct (decide (id ∈ {[id]} ∪ X)); [reflexivity|set_solver].
    + rewrite lookup_alter_ne, IH by exact Hne.
      destruct (decide (id ∈ X)) as [Hin|Hin],
               (decide (id ∈ {[x]} ∪ X)) as [Hin'|Hin'];
        try reflexivity.
      * exfalso. apply Hin'. apply elem_of_union_r. exact Hin.
      * exfalso. apply elem_of_union in Hin' as [Hx'|HX]; [|contradiction].
        apply elem_of_singleton in Hx'. congruence.
Qed.

End SchedulerFacts.

Section SchedulerClaims.
Import Player.

(** C1, as stated, fails: a chunk of 1 second submitted at clock time 0 and
    a second chunk submitted at clock time 5 start at 0 and at 5, not at 0
    and at 1. *)
Lemma C1_late_chunk_starts_at_clock_time :
  ~ (exists t1 t2,
       scheduledStart
         (submitAll [] [mkSubmission 0 (mkBuffer 1 24000 1) false;
                        mkSubmission 5 (mkBuffer 1 24000 1) false] initialApp)
         0%nat = Some t1 /\
       scheduledStart
         (submitAll [] [mkSubmission 0 (mkBuffer 1 24000 1) false;
                        mkSubmission 5 (mkBuffer 1 24000 1) false] initialApp)
         1%nat = Some t2 /\
       t2 == t1 + buf_duration (mkBuffer 1 24000 1)).
Proof.
  intros (t1 & t2 & H1 & H2 & H).
  vm_compute in H1, H2.
  injection H1 as <-. injection H2 as <-.
  vm_compute in H. discriminate H.
Qed.

(** C1, amended.  Each play starts its chunk at [max(cursor, clockNow())]
    and moves the cursor to that start plus the chunk's duration.  For
    chunks submitted in order, chunk [i+1] therefore starts at the later of
    the end of chunk [i] and the clock reading of its own submission: never
    before chunk [i] ends, and exactly when chunk [i] ends if it is
    submitted no later than that. *)
Theorem C1_chunk_starts_at_previous_end_or_now (urls : list string)
  (subs : list Submission) (a : App) (i : nat) (s1 s2 : Submission) :
  subs !! i = Some s1 -> subs !! S i = Some s2 ->
  (forall now buf flag b,
     scheduledStart (playAudioBuffer now urls buf flag b) (nextSourceId b)
     = Some (Qmax (nextStartTimeRef b) now) /\
     nextStartTimeRef (playAudioBuffer now urls buf flag b)
     = Qmax (nextStartTimeRef b) now + buf_duration buf) /\
  exists t1 t2,
    scheduledStart (submitAll urls subs a) (nextSourceId a + i) = Some t1 /\
    scheduledStart (submitAll urls subs a) (nextSourceId a + S i) = Some t2 /\
    t2 = Qmax (t1 + buf_duration (chunk s1)) (at_time s2) /\
    t1 + buf_duration (chunk s1) <= t2 /\
    (at_time s2 <= t1 + buf_duration (chunk s1) ->
     t2 = t1 + buf_duration (chunk s1)).
Proof.
  intros H1 H2. split.
  - intros now buf flag b. split; [apply play_scheduledStart | apply play_cursor].
  - destruct (submitAll_consecutive urls subs a i s1 s2 H1 H2) as (t1 & _ & E1 & E2).
    exists t1, (Qmax (t1 + buf_duration (chunk s1)) (at_time s2)).
    repeat split; auto using Qmax_lower, Qmax_first.
Qed.

(** Three chunks of 2 seconds submitted at clock times 1, 1 and 2: the
    third is submitted before the second ends and starts right at its end. *)
Lemma C1_chunk_starts_at_previous_end_or_now_witness :
  exists t1 t2,
    scheduledStart
      (submitAll [] [mkSubmission 1 (mkBuffer 2 24000 1) true;
                     mkSubmission 1 (mkBuffer 2 24000 1) true;
                     mkSubmission 2 (mkBuffer 2 24000 1) true] initialApp)
      (0 + 1)%nat = Some t1 /\
    scheduledStart
      (submitAll [] [mkSubmission 1 (mkBuffer 2 24000 1) true;
                     mkSubmission 1 (mkBuffer 2 24000 1) true;
                     mkSubmission 2 (mkBuffer 2 24000 1) true] initialApp)
      (0 + 2)%nat = Some t2 /\
    t2 = Qmax (t1 + 2) 2 /\
    t1 + 2 <= t2.
Proof.
  destruct (C1_chunk_starts_at_previous_end_or_now []
              [mkSubmission 1 (mkBuffer 2 24000 1) true;
               mkSubmission 1 (mkBuffer 2 24000 1) true;
               mkSubmission 2 (mkBuffer 2 24000 1) true]
              initialApp 1
              (mkSubmission 1 (mkBuffer 2 24000 1) true)
              (mkSubmission 2 (mkBuffer 2 24000 1) true)
              eq_refl eq_refl) as (_ & t1 & t2 & E1 & E2 & E3 & E4 & _).
  exists t1, t2. repeat split; assumption.
Defined.

(** C6.  [stopAllAudio] stops and disconnects every source in the active
    set, empties the set and puts the cursor back to 0; whatever the cursor
    was before, the next play then starts its chunk at the clock time of
    that play (the audio clock is never negative). *)
Theorem C6_stopAll_then_play_starts_now (a : App) (now : Q)
  (urls : list string) (buf : AudioBuffer) (flag : bool) :
  0 <= now ->
  (forall id n, id ∈ sourceNodesRef a -> sources a !! id = Some n ->
     exists n', sources (stopAllAudio a) !! id = Some n' /\
                stopped n' = true /\ connected n' = false /\
                buffer n' = buffer n /\ startAt n' = startAt n) /\
  sourceNodesRef (stopAllAudio a) = ∅ /\
  nextStartTimeRef (stopAllAudio a) = 0 /\
  exists t,
    scheduledStart (playAudioBuffer now urls buf flag (stopAllAudio a))
                   (nextSourceId (stopAllAudio a)) = Some t /\
    t == now.
Proof.
  intros Hnow. repeat split.
  - intros id n Hin Hn. exists (halt n).
    rewrite stopAll_sources, Hn.
    destruct (decide (id ∈ sourceNodesRef a)); [|contradiction].
    repeat split.
  - exists (Qmax 0 now). split.
    + apply play_scheduledStart.
    + apply Qmax_second. exact Hnow.
Qed.

(** Two chunks are playing and the cursor stands at 13 when the audio is
    stopped at clock time 3. *)
Lemma C6_stopAll_then_play_starts_now_witness :
  nextStartTimeRef
    (submitAll [] [mkSubmission 3 (mkBuffer 5 24000 1) false;
                   mkSubmission 3 (mkBuffer 5 24000 1) false] initialApp) == 13 /\
  sourceNodesRef
    (stopAllAudio
       (submitAll [] [mkSubmission 3 (mkBuffer 5 24000 1) false;
                      mkSubmission 3 (mkBuffer 5 24000 1) false] initialApp)) = ∅ /\
  exists t,
    scheduledStart
      (playAudioBuffer 3 [] (mkBuffer 5 24000 1) false
         (stopAllAudio
            (submitAll [] [mkSubmission 3 (mkBuffer 5 24000 1) false;
                           mkSubmission 3 (mkBuffer 5 24000 1) false] initialApp)))
      2%nat = Some t /\ t == 3.
Proof.
  split; [vm_compute; reflexivity|].
  assert (0 <= 3) as Hnow by (unfold Qle; simpl; lia).
  destruct (C6_stopAll_then_play_starts_now
              (submitAll [] [mkSubmission 3 (mkBuffer 5 24000 1) false;
                             mkSubmission 3 (mkBuffer 5 24000 1) false] initialApp)
              3 [] (mkBuffer 5 24000 1) false Hnow)
    as (_ & Hset & _ & t & Ht & Heq).
  split; [exact Hset|].
  exists t. split; [exact Ht | exact Heq].
Defined.

(** The cursor invariant of the data model: a play never moves the cursor
    back while the chunk's duration is not negative. *)
Lemma play_cursor_monotone now urls buf flag a :
  0 <= buf_duration buf ->
  nextStartTimeRef a <= nextStartTimeRef (playAudioBuffer now urls buf flag a).
Proof.
  intros Hd. rewrite play_cursor.
  eapply Qle_trans; [apply (Qmax_lower _ now)|].
  rewrite <- (Qplus_0_r (Qmax _ _)) at 1.
  apply Qplus_le_r. exact Hd.
Qed.

End SchedulerClaims.

(** ** Scene crossfade *)

Section CrossfadeFacts.
Import Player.

Lemma set_highlight_fade a line word :
  audiobookFadeStateRef (set_highlight a line word) = audiobookFadeStateRef a.
Proof. reflexivity. Qed.

Lemma captionFrame_fade f a :
  audiobookFadeStateRef (captionFrame f a) = audiobookFadeStateRef a.
Proof.
  unfold captionFrame.
  destruct (_ && _ && _); [|reflexivity].
  destruct (Karaoke.currentLineAndWord _ _). reflexivity.
Qed.

(** With at most one scene image the trigger is never taken. *)
Lemma sceneCycle_few_images f a :
  (length (sceneUrls f) <= 1)%nat -> sceneCycle f a = a.
Proof.
  intros Hlen. unfold sceneCycle.
  destruct (_ && _); [|reflexivity].
  replace (1 <? length (sceneUrls f))%nat with false
    by (symmetry; apply Nat.ltb_ge; exact Hlen).
  rewrite andb_false_r. reflexivity.
Qed.

(** Drawing never starts a fade. *)
Lemma sceneDraw_no_fade f a :
  audiobookFadeStateRef a = None -> audiobookFadeStateRef (sceneDraw f a) = None.
Proof.
  intros H. unfold sceneDraw, sceneStatic. rewrite H.
  destruct (currentLoadedAudiobookImageRef a); [exact H|].
  destruct (url_at _ _); [reflexivity | exact H].
Qed.

Lemma animate_few_images f a :
  (length (sceneUrls f) <= 1)%nat ->
  audiobookFadeStateRef a = None ->
  audiobookFadeStateRef (animate f a) = None.
Proof.
  intros Hlen H. unfold animate. rewrite captionFrame_fade.
  unfold sceneFrame.
  destruct (videoShowing f); [exact H|].
  destruct (_ && _); [|exact H].
  rewrite sceneCycle_few_images by exact Hlen.
  apply sceneDraw_no_fade. exact H.
Qed.

Lemma step_few_images e a :
  (forall f, e = Frame f -> (length (sceneUrls f) <= 1)%nat) ->
  audiobookFadeStateRef a = None ->
  audiobookFadeStateRef (step a e) = None.
Proof.
  intros Hlen H. destruct e as [s urls|id| |f| ]; simpl.
  - unfold playAudioBuffer. destruct (asAudiobook s); [reflexivity | exact H].
  - unfold sourceEnded. destruct (_ && _); exact H.
  - exact H.
  - apply animate_few_images; auto.
  - unfold imageLoaded. destruct (currentLoadedAudiobookImageRef a); exact H.
Qed.

Lemma run_few_images es a :
  (forall f, In (Frame f) es -> (length (sceneUrls f) <= 1)%nat) ->
  audiobookFadeStateRef a = None ->
  audiobookFadeStateRef (run es a) = None.
Proof.
  revert a. induction es as [|e r IH]; intros a Hlen H; [exact H|].
  simpl. apply IH.
  - intros f Hf. apply Hlen. now right.
  - apply step_few_images; [|exact H].
    intros f ->. apply Hlen. now left.
Qed.

End CrossfadeFacts.

Section CrossfadeClaims.
Import Player.

(** C9.  In a session whose render frames all see at most one scene image,
    a fade state that is absent stays absent after every event, whatever
    the clock readings and the narration's buffers are: the crossfade never
    enters its fading state. *)
Theorem C9_single_image_never_fades (es : list Event) (a : App) (n : nat) :
  (forall f, In (Frame f) es -> (length (sceneUrls f) <= 1)%nat) ->
  audiobookFadeStateRef a = None ->
  audiobookFadeStateRef (run (take n es) a) = None /\
  fadeActive (run (take n es) a) = false.
Proof.
  intros Hlen H.
  assert (audiobookFadeStateRef (run (take n es) a) = None) as E.
  { apply run_few_images; [|exact H].
    intros f Hf. apply Hlen.
    apply list_elem_of_In. apply list_elem_of_In in Hf.
    exact (subseteq_take n es _ Hf). }
  split; [exact E|]. unfold fadeActive. now rewrite E.
Qed.

End CrossfadeClaims.

Section CrossfadeExamples.
Import Player.

(** A narration of 5 seconds started at clock time 0, with render frames at
    0, 10 and 20 seconds and one scene image. *)
Lemma C9_single_image_never_fades_witness :
  audiobookFadeStateRef
    (run (take 3 [Play (mkSubmission 0 (mkBuffer 5 24000 1) true) ["a.png"%string];
                  Frame (mkFrame 10 false ["a.png"%string] [mkBuffer 5 24000 1] [] true);
                  Frame (mkFrame 20 false ["a.png"%string] [mkBuffer 5 24000 1] [] true)])
         initialApp) = None /\
  fadeActive
    (run (take 3 [Play (mkSubmission 0 (mkBuffer 5 24000 1) true) ["a.png"%string];
                  Frame (mkFrame 10 false ["a.png"%string] [mkBuffer 5 24000 1] [] true);
                  Frame (mkFrame 20 false ["a.png"%string] [mkBuffer 5 24000 1] [] true)])
         initialApp) = false.
Proof.
  apply (C9_single_image_never_fades
           [Play (mkSubmission 0 (mkBuffer 5 24000 1) true) ["a.png"%string];
            Frame (mkFrame 10 false ["a.png"%string] [mkBuffer 5 24000 1] [] true);
            Frame (mkFrame 20 false ["a.png"%string] [mkBuffer 5 24000 1] [] true)]
           initialApp 3).
  - intros f [H|[H|[H|[]]]]; try discriminate H; injection H as <-; simpl; lia.
  - reflexivity.
Defined.

(** The same session with two scene images does start a fade at the frame
    at 10 seconds: the bound on the image count is what keeps the machine
    static. *)
Example two_images_fade :
  fadeActive
    (run [Play (mkSubmission 0 (mkBuffer 5 24000 1) true) ["a.png"; "b.png"]%string;
          Frame (mkFrame 10 false ["a.png"; "b.png"]%string [mkBuffer 5 24000 1] [] true)]
         initialApp) = true.
Proof. vm_compute. reflexivity. Qed.

End CrossfadeExamples.

(** ** Video capture *)

Section CaptureFacts.
Import Capture.

Lemma ondataavailable_chunks d r :
  recordedChunksRef (ondataavailable d r)
  = recordedChunksRef r ++ List.filter (fun d => (0 <? size d)%nat) [d].
Proof.
  unfold ondataavailable. simpl.
  destruct (0 <? size d)%nat; simpl; [reflexivity | now rewrite List.app_nil_r].
Qed.

Lemma ondataavailable_codec d r :
  selectedCodec (ondataavailable d r) = selectedCodec r.
Proof. unfold ondataavailable. destruct (0 <? size d)%nat; reflexivity. Qed.

(** The accumulation list after a run of [ondataavailable] calls: the
    non-empty chunks, in the order they arrived. *)
Lemma accumulate_chunks emitted r :
  recordedChunksRef (fold_left (fun r d => ondataavailable d r) emitted r)
  = recordedChunksRef r ++ List.filter (fun d => (0 <? size d)%nat) emitted
  /\ selectedCodec (fold_left (fun r d => ondataavailable d r) emitted r)
     = selectedCodec r.
Proof.
  revert r. induction emitted as [|d ds IH]; intros r; simpl.
  - now rewrite List.app_nil_r.
  - destruct (IH (ondataavailable d r)) as [E1 E2].
    rewrite E1, E2, ondataavailable_chunks, ondataavailable_codec.
    split; [|reflexivity].
    rewrite <- List.app_assoc. simpl.
    destruct (0 <? size d)%nat; reflexivity.
Qed.

Lemma find_value_In {A} (p : A -> bool) l x : List.find p l = Some x -> In x l /\ p x = true.
Proof. apply List.find_some. Qed.

Lemma start_session env res codec rate r :
  startRecordingVideo env res codec rate = inr r ->
  recordedChunksRef r = [] /\ In (selectedCodec r) VIDEO_CODECS /\
  codec_value (selectedCodec r) = codec.
Proof.
  unfold startRecordingVideo.
  destruct (_ || _); [discriminate|].
  destruct (_ && _); [discriminate|].
  destruct (List.find _ VIDEO_RESOLUTIONS); [|discriminate].
  destruct (List.find _ VIDEO_CODECS) as [c|] eqn:Ec; [|destruct (List.find _ _); discriminate].
  destruct (List.find _ VIDEO_BITRATES); [|discriminate].
  destruct (negb (hasVideoTrack env)); [discriminate|].
  destruct (negb (hasAudioTrack env)); [discriminate|].
  intros [= <-]. simpl.
  apply find_value_In in Ec as [Hin Hv].
  repeat split; [exact Hin|]. now apply String.eqb_eq in Hv.
Qed.

(** The container types of the codec table are stored by a blob as they
    are written. *)
Lemma blob_type_table c : In c VIDEO_CODECS -> blob_type (mimeType c) = mimeType c.
Proof. intros [<-|[<-|[]]]; reflexivity. Qed.

Lemma onstop_spec r :
  In (selectedCodec r) VIDEO_CODECS ->
  onstop r
  = match recordedChunksRef r with
    | [] => inl EmptyCapture
    | _ :: _ => inr (mkBlob (List.concat (List.map bytes (recordedChunksRef r)))
                            (mimeType (selectedCodec r)))
    end.
Proof.
  intros Hin. unfold onstop, newBlob. rewrite (blob_type_table _ Hin).
  destruct (recordedChunksRef r); reflexivity.
Qed.

Lemma record_spec env res codec rate r0 emitted :
  startRecordingVideo env res codec rate = inr r0 ->
  record env res codec rate emitted
  = match List.filter (fun d => (0 <? size d)%nat) emitted with
    | [] => inl EmptyCapture
    | kept => inr (mkBlob (List.concat (List.map bytes kept))
                          (mimeType (selectedCodec r0)))
    end.
Proof.
  intros Hstart. unfold record. rewrite Hstart.
  destruct (start_session _ _ _ _ _ Hstart) as (Hempty & Hin & _).
  destruct (accumulate_chunks emitted r0) as [E1 E2].
  rewrite onstop_spec by (rewrite E2; exact Hin).
  rewrite E1, E2, Hempty. simpl.
  destruct (List.filter _ emitted); reflexivity.
Qed.

End CaptureFacts.

Section CaptureClaims.
Import Capture.

(** C8.  For a recording started with a resolution, codec and bitrate of
    the tables: when the recorder is stopped with no chunk accumulated, the
    empty-capture error is reported and no blob is produced; with at least
    one chunk accumulated, the result is one blob that holds the bytes of
    all accumulated chunks in arrival order and carries the container type
    of the selected codec.  Chunks of 10, 20 and 30 bytes give one blob of
    60 bytes with that type. *)
Theorem C8_stop_reports_empty_or_assembles (env : Surroundings)
  (res codec rate : string) (r0 : Recording) (emitted : list Blob) :
  startRecordingVideo env res codec rate = inr r0 ->
  codec_value (selectedCodec r0) = codec /\
  (List.filter (fun d => (0 <? size d)%nat) emitted = [] ->
   record env res codec rate emitted = inl EmptyCapture) /\
  (List.filter (fun d => (0 <? size d)%nat) emitted <> [] ->
   record env res codec rate emitted
   = inr (mkBlob (List.concat (List.map bytes
                    (List.filter (fun d => (0 <? size d)%nat) emitted)))
                 (mimeType (selectedCodec r0)))) /\
  (forall d1 d2 d3,
     emitted = [d1; d2; d3] ->
     size d1 = 10%nat -> size d2 = 20%nat -> size d3 = 30%nat ->
     exists blob,
       record env res codec rate emitted = inr blob /\
       size blob = 60%nat /\
       type blob = mimeType (selectedCodec r0) /\
       bytes blob = bytes d1 ++ bytes d2 ++ bytes d3).
Proof.
  intros Hstart.
  pose proof (record_spec env res codec rate r0 emitted Hstart) as Hrec.
  destruct (start_session _ _ _ _ _ Hstart) as (_ & _ & Hv).
  split; [exact Hv|]. split; [|split].
  - intros E. now rewrite Hrec, E.
  - intros Hne. rewrite Hrec.
    destruct (List.filter _ emitted); [contradiction | reflexivity].
  - intros d1 d2 d3 -> H1 H2 H3.
    rewrite Hrec. simpl. rewrite H1, H2, H3. simpl.
    eexists. split; [reflexivity|].
    unfold size in *. simpl.
    rewrite List.app_nil_r, !List.length_app, H1, H2, H3.
    repeat split.
Qed.

(** A 720p WebM recording at 2 Mbps, started while an audiobook plays,
    that receives chunks of 10, 20 and 30 bytes. *)
Lemma C8_stop_reports_empty_or_assembles_witness :
  exists blob,
    record (mkSurroundings true true false true true true)
      "720p" "webm" "2000k"
      [mkBlob (repeat Byte.x01 10) ""; mkBlob (repeat Byte.x02 20) "";
       mkBlob (repeat Byte.x03 30) ""] = inr blob /\
    size blob = 60%nat /\
    type blob = "video/webm"%string.
Proof.
  destruct (C8_stop_reports_empty_or_assembles
              (mkSurroundings true true false true true true)
              "720p" "webm" "2000k" _
              [mkBlob (repeat Byte.x01 10) ""; mkBlob (repeat Byte.x02 20) "";
               mkBlob (repeat Byte.x03 30) ""] eq_refl)
    as (_ & _ & _ & H).
  destruct (H _ _ _ eq_refl eq_refl eq_refl eq_refl) as (blob & E & Hs & Ht & _).
  exists blob. repeat split; assumption.
Defined.

End CaptureClaims.

(** ** Retry-wrapped synthesis client *)

Section RetryFacts.
Import Player Tts.

Variable service : nat -> Attempt.
Variable maxRetries : nat.

Ltac use_outcome :=
  match goal with
  | E : failure (service _) = _ |- _ => rewrite E
  end.

(** One turn of the loop, with the loop condition and the retry test
    written as in the source. *)
Lemma attempt_loop_turn attempts audioBuffers trace :
  attempt_loop service maxRetries attempts audioBuffers trace =
  if decide (attempts <= maxRetries)%nat then
    match failure (service attempts) with
    | None =>
        (trace ++ [Request attempts],
         Returned (audioBuffers ++ decoded (service attempts)))
    | Some error =>
        if decide (attempts < maxRetries)%nat then
          attempt_loop service maxRetries (S attempts)
            (audioBuffers ++ decoded (service attempts))
            (trace ++ [Request attempts; Sleep (2 ^ Z.of_nat attempts * 1000)%Z])
        else (trace ++ [Request attempts], Thrown error)
    end
  else (trace, Thrown AfterRetries).
Proof.
  funelim (attempt_loop service maxRetries attempts audioBuffers trace).
  - destruct (decide _); [lia | reflexivity].
  - destruct (decide _); [|lia]. use_outcome. reflexivity.
  - destruct (decide (attempts <= maxRetries)%nat); [|lia].
    use_outcome. destruct (decide _); [|lia]. reflexivity.
  - destruct (decide (attempts <= maxRetries)%nat); [|lia].
    use_outcome. destruct (decide _); [lia|]. reflexivity.
Qed.

Lemma requests_app t1 t2 : requests (t1 ++ t2) = requests t1 ++ requests t2.
Proof. apply omap_app. Qed.

(** The loop sends at most one request for each value of [attempts] from
    its start to [maxRetries]. *)
Lemma attempt_loop_requests attempts audioBuffers trace :
  (length (requests (fst (attempt_loop service maxRetries attempts audioBuffers trace)))
   <= length (requests trace) + (S maxRetries - attempts))%nat.
Proof.
  funelim (attempt_loop service maxRetries attempts audioBuffers trace); simpl.
  - lia.
  - rewrite requests_app, List.length_app. simpl. lia.
  - match goal with
    | IH : (length _ <= _)%nat |- _ =>
        etransitivity; [exact IH|];
        rewrite requests_app, List.length_app; simpl; lia
    end.
  - rewrite requests_app, List.length_app. simpl. lia.
Qed.

Lemma generateTextToSpeech_requests cached API_KEY :
  (length (requests (fst (generateTextToSpeech service maxRetries cached API_KEY)))
   <= S maxRetries)%nat.
Proof.
  unfold generateTextToSpeech.
  destruct (getGeminiClient cached API_KEY); simpl; [lia|].
  etransitivity; [apply attempt_loop_requests|]. simpl. lia.
Qed.

End RetryFacts.

Section RetryClaims.
Import Player Tts.

(** C7.  With the default budget of 2 retries the client sends at most 3
    requests.  Once it has its API client: a failed attempt with retries
    left is followed by a wait of 2^attempts seconds (1 s after the first
    failure, 2 s after the second) and another request; when an attempt
    succeeds the caller gets the decoded buffers and no error; when all 3
    attempts fail the caller gets the error of the third. *)
Theorem C7_three_attempts_with_backoff (service : nat -> Attempt)
  (cached : bool) (API_KEY : option string) :
  (length (requests
     (fst (generateTextToSpeech service defaultMaxRetries cached API_KEY)))
   <= 3)%nat /\
  (getGeminiClient cached API_KEY = None ->
   (failure (service 0%nat) = None ->
    generateTextToSpeech service defaultMaxRetries cached API_KEY
    = ([Request 0], Returned (decoded (service 0%nat)))) /\
   (forall e0,
      failure (service 0%nat) = Some e0 -> failure (service 1%nat) = None ->
      generateTextToSpeech service defaultMaxRetries cached API_KEY
      = ([Request 0; Sleep 1000; Request 1],
         Returned (decoded (service 0%nat) ++ decoded (service 1%nat)))) /\
   (forall e0 e1,
      failure (service 0%nat) = Some e0 -> failure (service 1%nat) = Some e1 ->
      failure (service 2%nat) = None ->
      generateTextToSpeech service defaultMaxRetries cached API_KEY
      = ([Request 0; Sleep 1000; Request 1; Sleep 2000; Request 2],
         Returned (decoded (service 0%nat) ++ decoded (service 1%nat)
                   ++ decoded (service 2%nat)))) /\
   (forall e0 e1 e2,
      failure (service 0%nat) = Some e0 -> failure (service 1%nat) = Some e1 ->
      failure (service 2%nat) = Some e2 ->
      generateTextToSpeech service defaultMaxRetries cached API_KEY
      = ([Request 0; Sleep 1000; Request 1; Sleep 2000; Request 2],
         Thrown e2))).
Proof.
  split; [apply generateTextToSpeech_requests|].
  intros Hclient. unfold generateTextToSpeech. rewrite Hclient.
  unfold defaultMaxRetries.
  repeat split.
  - intros H0. rewrite attempt_loop_turn, H0. reflexivity.
  - intros e0 H0 H1.
    rewrite attempt_loop_turn, H0. simpl.
    rewrite attempt_loop_turn, H1. reflexivity.
  - intros e0 e1 H0 H1 H2.
    rewrite attempt_loop_turn, H0. simpl.
    rewrite attempt_loop_turn, H1. simpl.
    rewrite attempt_loop_turn, H2. simpl.
    now rewrite <- List.app_assoc.
  - intros e0 e1 e2 H0 H1 H2.
    rewrite attempt_loop_turn, H0. simpl.
    rewrite attempt_loop_turn, H1. simpl.
    rewrite attempt_loop_turn, H2. reflexivity.
Qed.

(** A service that fails twice and then streams two chunks, the second
    without audio. *)
Lemma C7_three_attempts_with_backoff_witness :
  generateTextToSpeech
    (fun n => match n with
              | 0%nat => mkAttempt [] (Some (Upstream "unavailable"))
              | 1%nat => mkAttempt [] (Some (Upstream "unavailable"))
              | _ => mkAttempt [Some (mkBuffer 2 24000 1); None] None
              end)
    defaultMaxRetries false (Some "key"%string)
  = ([Request 0; Sleep 1000; Request 1; Sleep 2000; Request 2],
     Returned [mkBuffer 2 24000 1]).
Proof.
  destruct (C7_three_attempts_with_backoff
              (fun n => match n with
                        | 0%nat => mkAttempt [] (Some (Upstream "unavailable"))
                        | 1%nat => mkAttempt [] (Some (Upstream "unavailable"))
                        | _ => mkAttempt [Some (mkBuffer 2 24000 1); None] None
                        end)
              false (Some "key"%string)) as [_ H].
  destruct (H eq_refl) as (_ & _ & H3 & _).
  exact (H3 _ _ eq_refl eq_refl eq_refl).
Defined.

(** The accumulation list is shared by the attempts: buffers decoded before
    a failure stay in it and come back in front of those of the attempt that
    succeeds. *)
Example buffers_of_failed_attempt_are_kept :
  snd (generateTextToSpeech
         (fun n => match n with
                   | 0%nat => mkAttempt [Some (mkBuffer 1 24000 1)]
                                        (Some (Upstream "reset"))
                   | _ => mkAttempt [Some (mkBuffer 1 24000 1);
                                     Some (mkBuffer 2 24000 1)] None
                   end)
         defaultMaxRetries false (Some "key"%string))
  = Returned [mkBuffer 1 24000 1; mkBuffer 1 24000 1; mkBuffer 2 24000 1].
Proof. vm_compute. reflexivity. Qed.

End RetryClaims.

(** * Further properties *)

(** ** Caption timing estimator: tokens, words and lookup *)

Section KaraokeMore.
Import JsString Karaoke.

Lemma Qlt_bool_iff a b : Qlt_bool a b = true <-> a < b.
Proof.
  unfold Qlt_bool. rewrite Qlt_alt.
  destruct (a ?= b); split; congruence.
Qed.

Lemma within_test from to t :
  Qle_bool from t && Qlt_bool t to = true <-> within from to t.
Proof.
  unfold within. rewrite andb_true_iff, Qle_bool_iff, Qlt_bool_iff. reflexivity.
Qed.

Lemma estimatedWordDuration_min base w : 0.08 <= estimatedWordDuration base w.
Proof.
  unfold estimatedWordDuration.
  destruct (isPunctuation w); [discriminate|].
  destruct (hasSpace w); [apply Qle_refl|].
  apply Qmax_lower.
Qed.

(** The inner [map] lays the word segments end to end from the offset it
    starts with, and the two accumulators stay equal when they start equal. *)
Lemma word_steps_end_to_end base ws off :
  let '(segs, (off', dur')) := map_accum (word_step base) (off, off) ws in
  WordsEndToEnd off segs off' /\ off' = dur' /\
  List.map word segs = List.map trim ws.
Proof.
  revert off. induction ws as [|w r IH]; intros off; simpl.
  - repeat split. constructor.
  - specialize (IH (off + estimatedWordDuration base w)).
    destruct (map_accum _ _ r) as [segs [off' dur']].
    destruct IH as (Hchain & Heq & Hwords).
    split; [|split; [exact Heq | simpl; now rewrite Hwords]].
    constructor; [reflexivity| |exact Hchain].
    simpl. apply Qplus_le_r. apply estimatedWordDuration_min.
Qed.

Lemma line_step_words base off line :
  let l := fst (line_step base off line) in
  WordsEndToEnd 0 (words l) (duration l) /\
  text l = trim line /\
  List.map word (words l) = List.map trim (wordsInLine line).
Proof.
  unfold line_step.
  pose proof (word_steps_end_to_end base (wordsInLine line) 0) as H.
  destruct (map_accum (word_step base) (0, 0) (wordsInLine line))
    as [segs [o d]].
  destruct H as (Hchain & <- & Hwords). simpl. auto.
Qed.

(** Every element a threaded [map] returns comes from one call of the
    callback on an element of the input. *)
Lemma map_accum_In {A B S} (f : S -> A -> B * S) s l b :
  In b (fst (map_accum f s l)) -> exists s' a, In a l /\ b = fst (f s' a).
Proof.
  revert s. induction l as [|a r IH]; intros s; simpl; [tauto|].
  destruct (f s a) as [b0 s1] eqn:E.
  specialize (IH s1). destruct (map_accum f s1 r) as [bs s2]. simpl in *.
  intros [<-|Hin].
  - exists s, a. rewrite E. auto.
  - destruct (IH Hin) as (s' & a' & Ha & Hb). exists s', a'. auto.
Qed.


Lemma WordsEndToEnd_lookup off ws fin j w :
  WordsEndToEnd off ws fin -> ws !! j = Some w ->
  (j = 0%nat -> startTime w = off) /\
  startTime w + 0.08 <= endTime w /\
  (forall w', ws !! S j = Some w' -> endTime w = startTime w') /\
  (ws !! S j = None -> endTime w = fin).
Proof.
  intros H. revert j. induction H as [off|off x r fin Hs Hd Hr IH]; intros j E.
  - discriminate.
  - destruct j as [|j]; simpl in E.
    + injection E as ->. repeat split; auto.
      * intros w' E'. simpl in E'. destruct Hr; simpl in E'; congruence.
      * intros E'. simpl in E'. destruct Hr; simpl in E'; congruence.
    + destruct (IH j E) as (_ & H2 & H3 & H4).
      repeat split; auto. discriminate.
Qed.

(** X1.  In every line the estimator returns, the word segments follow one
    another without gap: the first starts at 0, each lasts at least 0.08
    seconds, each ends where the next one starts, and the last one ends at
    the line's duration. *)
Theorem X1_words_partition_line (t : jsstring) (D : Q) (i j : nat)
  (l : LineSegment) (w : WordSegment) :
  segmentTextForKaraoke t D !! i = Some l ->
  words l !! j = Some w ->
  (j = 0%nat -> startTime w = 0) /\
  startTime w + 0.08 <= endTime w /\
  (forall w', words l !! S j = Some w' -> endTime w = startTime w') /\
  (words l !! S j = None -> endTime w = duration l).
Proof.
  intros Hl Hw.
  assert (WordsEndToEnd 0 (words l) (duration l)) as Hchain.
  { apply list_elem_of_lookup_2, list_elem_of_In in Hl.
    unfold segmentTextForKaraoke in Hl.
    destruct (Nat.eqb _ 0); [destruct Hl|].
    apply map_accum_In in Hl as (off & line & _ & ->).
    apply line_step_words. }
  eapply WordsEndToEnd_lookup; eauto.
Qed.

Lemma X1_words_partition_line_witness :
  exists l w w',
    segmentTextForKaraoke (str "ab cd") 2 !! 0%nat = Some l /\
    words l !! 0%nat = Some w /\ words l !! 1%nat = Some w' /\
    startTime w = 0 /\ endTime w = startTime w'.
Proof.
  eexists. eexists. eexists.
  split; [vm_compute; reflexivity|].
  split; [vm_compute; reflexivity|].
  split; [vm_compute; reflexivity|].
  destruct (X1_words_partition_line (str "ab cd") 2 0 0 _ _ eq_refl eq_refl)
    as (H0 & _ & Hnext & _).
  split; [apply H0; reflexivity | apply Hnext; reflexivity].
Defined.

(** Pieces between separators hold no white space, and separators are runs
    of white space or of punctuation. *)
Lemma span_forallb p s : forallb p (fst (span p s)) = true.
Proof.
  induction s as [|c r IH]; simpl; [reflexivity|].
  destruct (p c) eqn:E; [|reflexivity].
  destruct (span p r). simpl in *. now rewrite E.
Qed.

Lemma is_punct_not_space c : is_punct c = true -> is_space c = false.
Proof.
  unfold is_punct, is_space. intros H.
  repeat (apply orb_prop in H as [H|H]);
    apply N.eqb_eq in H; subst; reflexivity.
Qed.

Lemma match_token_sep_kind prev rest matched after :
  match_token_sep prev rest = Some (matched, after) ->
  space_or_spaceless matched.
Proof.
  unfold match_token_sep, match_spaces, match_inner_punct.
  pose proof (span_forallb is_space rest) as Hs.
  destruct (span is_space rest) as [[|x m] a].
  - destruct prev as [b|]; [|discriminate].
    destruct (is_word_char b); [|discriminate].
    pose proof (span_forallb is_punct rest) as Hp.
    destruct (span is_punct rest) as [[|y m] [|c r]]; try discriminate.
    destruct (is_word_char c); [|discriminate].
    intros [= <- <-]. right.
    clear -Hp. revert Hp. generalize (y :: m) as l.
    induction l as [|z l IH]; simpl; [reflexivity|].
    intros H. apply andb_prop in H as [Hz Hl].
    now rewrite (is_punct_not_space _ Hz), IH.
  - intros [= <- <-]. left. exact Hs.
Qed.

Lemma match_token_sep_none_space prev c rest :
  match_token_sep prev (c :: rest) = None -> is_space c = false.
Proof.
  unfold match_token_sep, match_spaces. simpl.
  destruct (is_space c); [|reflexivity].
  destruct (span is_space rest). discriminate.
Qed.

Lemma existsb_app_false {A} (p : A -> bool) l1 l2 :
  existsb p l1 = false -> existsb p l2 = false -> existsb p (l1 ++ l2) = false.
Proof. intros H1 H2. now rewrite List.existsb_app, H1, H2. Qed.

Lemma split_loop_kinds fuel prev piece rest :
  existsb is_space piece = false ->
  Forall space_or_spaceless (split_loop match_token_sep true fuel prev piece rest).
Proof.
  revert prev piece rest. induction fuel as [|fuel IH]; intros prev piece rest Hp.
  - simpl. constructor; [now right | constructor].
  - destruct rest as [|c rest']; simpl.
    + constructor; [now right | constructor].
    + destruct (match_token_sep prev (c :: rest')) as [[matched after]|] eqn:E.
      * constructor; [now right|].
        constructor; [eapply match_token_sep_kind; eauto|].
        apply IH. reflexivity.
      * apply IH. apply existsb_app_false; [exact Hp|].
        simpl. now rewrite (match_token_sep_none_space _ _ _ E).
Qed.

(** X2.  Splitting a line into tokens loses nothing and mixes nothing: the
    tokens, concatenated in order, are the line; no token is empty; and a
    token that contains white space consists of white space only. *)
Theorem X2_tokens_spell_the_line (line : jsstring) :
  List.concat (wordsInLine line) = line /\
  Forall (fun w => w <> []) (wordsInLine line) /\
  Forall (fun w => hasSpace w = false \/ forallb is_space w = true)
         (wordsInLine line).
Proof.
  split; [apply wordsInLine_concat|]. split.
  - apply List.Forall_forall. intros w Hw.
    apply List.filter_In in Hw as [_ Hw]. intros ->. discriminate Hw.
  - apply List.Forall_forall. intros w Hw.
    apply List.filter_In in Hw as [Hw _].
    pose proof (split_loop_kinds (length line) None [] line eq_refl) as Hall.
    rewrite List.Forall_forall in Hall.
    destruct (Hall w Hw) as [H|H]; [now right | now left].
Qed.


(** The inner loop of the lookup: the first word in range, or [-1]. *)
Lemma findWord_spec x j ws :
  (findWord x j ws = (-1)%Z /\
   forall w, In w ws -> ~ within (startTime w) (endTime w) x) \/
  (exists k w,
     findWord x j ws = (j + Z.of_nat k)%Z /\ ws !! k = Some w /\
     within (startTime w) (endTime w) x /\
     forall m w', (m < k)%nat -> ws !! m = Some w' ->
                  ~ within (startTime w') (endTime w') x).
Proof.
  revert j. induction ws as [|w r IH]; intros j; simpl.
  - left. split; [reflexivity | tauto].
  - destruct (Qle_bool (startTime w) x && Qlt_bool x (endTime w)) eqn:E.
    + right. exists 0%nat, w. apply within_test in E.
      repeat split; try apply E; [f_equal; lia | lia].
    + assert (~ within (startTime w) (endTime w) x) as Hout.
      { intros H. apply within_test in H. congruence. }
      destruct (IH (j + 1)%Z) as [[E1 Hall]|(k & w0 & E1 & Hk & Hin & Hfirst)].
      * left. split; [exact E1|]. intros w' [<-|Hw']; auto.
      * right. exists (S k), w0. repeat split; try apply Hin.
        -- rewrite E1. lia.
        -- exact Hk.
        -- intros m w' Hm Hw'. destruct m as [|m]; simpl in Hw'.
           ++ injection Hw' as <-. exact Hout.
           ++ eapply Hfirst; [|exact Hw']. lia.
Qed.

(** The outer loop: the first line in range, with the inner loop run on
    the time into that line. *)
Lemma findLine_spec x i ls :
  (findLine x i ls = ((-1)%Z, (-1)%Z) /\
   forall l, In l ls -> ~ within (relativeStartTime l) (relativeEndTime l) x) \/
  (exists n l,
     findLine x i ls
     = ((i + Z.of_nat n)%Z, findWord (x - relativeStartTime l) 0 (words l)) /\
     ls !! n = Some l /\
     within (relativeStartTime l) (relativeEndTime l) x /\
     forall m l', (m < n)%nat -> ls !! m = Some l' ->
                  ~ within (relativeStartTime l') (relativeEndTime l') x).
Proof.
  revert i. induction ls as [|l r IH]; intros i; simpl.
  - left. split; [reflexivity | tauto].
  - destruct (Qle_bool (relativeStartTime l) x && Qlt_bool x (relativeEndTime l)) eqn:E.
    + right. exists 0%nat, l. apply within_test in E.
      repeat split; try apply E; [f_equal; lia | lia].
    + assert (~ within (relativeStartTime l) (relativeEndTime l) x) as Hout.
      { intros H. apply within_test in H. congruence. }
      destruct (IH (i + 1)%Z) as [[E1 Hall]|(n & l0 & E1 & Hn & Hin & Hfirst)].
      * left. split; [exact E1|]. intros l' [<-|Hl']; auto.
      * right. exists (S n), l0. repeat split; try apply Hin.
        -- rewrite E1. f_equal. lia.
        -- exact Hn.
        -- intros m l' Hm Hl'. destruct m as [|m]; simpl in Hl'.
           ++ injection Hl' as <-. exact Hout.
           ++ eapply Hfirst; [|exact Hl']. lia.
Qed.

(** X4.  On any timing table, the caption lookup at time [x] returns the
    index of the first line whose range [[start, end)] contains [x], and the
    index of the first word of that line whose range contains the time into
    the line; an index is [-1] exactly when there is no such line or word. *)
Theorem X4_lookup_finds_first_match (ls : list LineSegment) (x : Q) :
  (currentLineAndWord ls x = ((-1)%Z, (-1)%Z) /\
   forall l, In l ls -> ~ within (relativeStartTime l) (relativeEndTime l) x) \/
  (exists n l,
     ls !! n = Some l /\
     within (relativeStartTime l) (relativeEndTime l) x /\
     (forall m l', (m < n)%nat -> ls !! m = Some l' ->
                   ~ within (relativeStartTime l') (relativeEndTime l') x) /\
     ((currentLineAndWord ls x = (Z.of_nat n, (-1)%Z) /\
       forall w, In w (words l) ->
                 ~ within (startTime w) (endTime w) (x - relativeStartTime l)) \/
      (exists k w,
         currentLineAndWord ls x = (Z.of_nat n, Z.of_nat k) /\
         words l !! k = Some w /\
         within (startTime w) (endTime w) (x - relativeStartTime l) /\
         forall m w', (m < k)%nat -> words l !! m = Some w' ->
                      ~ within (startTime w') (endTime w') (x - relativeStartTime l)))).
Proof.
  unfold currentLineAndWord.
  destruct (findLine_spec x 0 ls) as [H|(n & l & E & Hn & Hin & Hfirst)];
    [left; exact H|].
  right. exists n, l. repeat split; try apply Hin; [exact Hn | exact Hfirst |].
  rewrite E.
  destruct (findWord_spec (x - relativeStartTime l) 0 (words l))
    as [[Ew Hall]|(k & w & Ew & Hk & Hw & Hwfirst)].
  - left. split; [now rewrite Ew | exact Hall].
  - right. exists k, w. repeat split; try apply Hw; [now rewrite Ew | exact Hk | exact Hwfirst].
Qed.

Lemma last_end_cons off l r :
  from_option relativeEndTime off (last (l :: r))
  = from_option relativeEndTime (relativeEndTime l) (last r).
Proof.
  destruct r as [|y r]; [reflexivity|]. rewrite last_cons_cons.
  destruct (last (y :: r)) eqn:El; [reflexivity|].
  apply last_None in El. discriminate.
Qed.

Lemma EndToEnd_end_le off ls :
  EndToEnd off ls -> Forall (fun l => 0 < duration l) ls ->
  off <= from_option relativeEndTime off (last ls).
Proof.
  induction 1 as [off|off l r Hs He Hr IH]; intros Hpos.
  - apply Qle_refl.
  - inversion Hpos as [|? ? Hl Hrpos]; subst.
    specialize (IH Hrpos). rewrite last_end_cons. rewrite He in *. lra.
Qed.

Lemma WordsEndToEnd_le off ws fin : WordsEndToEnd off ws fin -> off <= fin.
Proof.
  induction 1 as [off|off w r fin Hs Hd Hr IH]; [apply Qle_refl|].
  rewrite Hs in Hd. lra.
Qed.

Lemma findWord_covers off ws fin x j :
  WordsEndToEnd off ws fin -> within off fin x ->
  exists k w, findWord x j ws = (j + Z.of_nat k)%Z /\ ws !! k = Some w.
Proof.
  intros H. revert j. induction H as [off|off w r fin Hs Hd Hr IH]; intros j [Hlo Hhi].
  - lra.
  - simpl. destruct (Qle_bool (startTime w) x && Qlt_bool x (endTime w)) eqn:E.
    + exists 0%nat, w. split; [f_equal; lia | reflexivity].
    + assert (endTime w <= x) as Hge.
      { destruct (Qlt_le_dec x (endTime w)) as [Hlt|Hge]; [|exact Hge].
        exfalso. assert (within (startTime w) (endTime w) x) as Hw
          by (split; [rewrite Hs; exact Hlo | exact Hlt]).
        apply within_test in Hw. congruence. }
      destruct (IH (j + 1)%Z (conj Hge Hhi)) as (k & w0 & E1 & Hk).
      exists (S k), w0. split; [rewrite E1; lia | exact Hk].
Qed.

Lemma findLine_covers off ls x i :
  EndToEnd off ls ->
  (forall l, In l ls -> WordsEndToEnd 0 (words l) (duration l)) ->
  within off (from_option relativeEndTime off (last ls)) x ->
  exists n k l w,
    findLine x i ls = ((i + Z.of_nat n)%Z, Z.of_nat k) /\
    ls !! n = Some l /\ words l !! k = Some w.
Proof.
  intros H. revert i.
  induction H as [off|off l r Hs He Hr IH]; intros i Hwords [Hlo Hhi].
  - simpl in Hhi. lra.
  - simpl. destruct (Qle_bool (relativeStartTime l) x && Qlt_bool x (relativeEndTime l)) eqn:E.
    + apply within_test in E as [E1 E2].
      destruct (findWord_covers 0 (words l) (duration l) (x - relativeStartTime l) 0)
        as (k & w & Ew & Hk).
      * apply Hwords. now left.
      * split; rewrite He, Hs in *; lra.
      * exists 0%nat, k, l, w. rewrite Ew.
        split; [f_equal; lia | split; [reflexivity | exact Hk]].
    + assert (relativeEndTime l <= x) as Hge.
      { destruct (Qlt_le_dec x (relativeEndTime l)) as [Hlt|Hge]; [|exact Hge].
        exfalso. assert (within (relativeStartTime l) (relativeEndTime l) x) as Hw
          by (split; [rewrite Hs; exact Hlo | exact Hlt]).
        apply within_test in Hw. congruence. }
      rewrite last_end_cons in Hhi.
      destruct (IH (i + 1)%Z) as (n & k & l0 & w & E1 & Hn & Hk).
      * intros l' Hl'. apply Hwords. now right.
      * split; [exact Hge | exact Hhi].
      * exists (S n), k, l0, w. rewrite E1.
        split; [f_equal; lia | split; [exact Hn | exact Hk]].
Qed.

Lemma findLine_outside off ls x i :
  EndToEnd off ls -> Forall (fun l => 0 < duration l) ls ->
  x < off \/ from_option relativeEndTime off (last ls) <= x ->
  findLine x i ls = ((-1)%Z, (-1)%Z).
Proof.
  intros H. revert i.
  induction H as [off|off l r Hs He Hr IH]; intros i Hpos Hout; [reflexivity|].
  inversion Hpos as [|? ? Hl Hrpos]; subst.
  pose proof (EndToEnd_end_le _ _ Hr Hrpos) as Hmono.
  rewrite last_end_cons in Hout.
  simpl.
  destruct (Qle_bool (relativeStartTime l) x && Qlt_bool x (relativeEndTime l)) eqn:E.
  - apply within_test in E as [E1 E2]. exfalso. destruct Hout; lra.
  - apply IH; [exact Hrpos|].
    destruct Hout as [Hout|Hout]; [left; rewrite He; lra | right; exact Hout].
Qed.

Lemma segment_words_end_to_end t D l :
  In l (segmentTextForKaraoke t D) -> WordsEndToEnd 0 (words l) (duration l).
Proof.
  unfold segmentTextForKaraoke.
  destruct (Nat.eqb _ 0); [intros []|].
  intros Hl. apply map_accum_In in Hl as (off & line & _ & ->).
  apply line_step_words.
Qed.

(** X5.  On the table the estimator returns, the lookup never falls into a
    gap: at every time from 0 up to (not including) the end of the timeline
    it returns a line of the table and a word of that line, and at every
    other time it returns [-1] for both. *)
Theorem X5_lookup_total_on_timeline (t : jsstring) (D x : Q) :
  (within 0 (timelineEnd (segmentTextForKaraoke t D)) x ->
   exists n k l w,
     currentLineAndWord (segmentTextForKaraoke t D) x = (Z.of_nat n, Z.of_nat k) /\
     segmentTextForKaraoke t D !! n = Some l /\ words l !! k = Some w) /\
  (~ within 0 (timelineEnd (segmentTextForKaraoke t D)) x ->
   currentLineAndWord (segmentTextForKaraoke t D) x = ((-1)%Z, (-1)%Z)).
Proof.
  split.
  - intros Hin.
    destruct (findLine_covers 0 (segmentTextForKaraoke t D) x 0
                (segment_end_to_end t D) (segment_words_end_to_end t D) Hin)
      as (n & k & l & w & E & Hn & Hk).
    exists n, k, l, w. auto.
  - intros Hout. unfold currentLineAndWord.
    apply (findLine_outside 0); [apply segment_end_to_end | apply segment_positive |].
    unfold within, timelineEnd in Hout.
    destruct (Qlt_le_dec x 0) as [H|H]; [now left|].
    right. destruct (Qlt_le_dec x (from_option relativeEndTime 0
                                     (last (segmentTextForKaraoke t D)))) as [H'|H'];
      [exfalso; apply Hout; auto | exact H'].
Qed.

Lemma X5_lookup_total_on_timeline_witness :
  exists n k l w,
    currentLineAndWord (segmentTextForKaraoke (str "ab cd") 2) 1
    = (Z.of_nat n, Z.of_nat k) /\
    segmentTextForKaraoke (str "ab cd") 2 !! n = Some l /\ words l !! k = Some w.
Proof.
  apply (X5_lookup_total_on_timeline (str "ab cd") 2 1).
  split; vm_compute; [discriminate | reflexivity].
Defined.
End KaraokeMore.

(** ** Playback scheduler: cursor, bookkeeping, chunks played in one go *)

Section SchedulerMore.
Import Player.

(** X7.  While chunks have non-negative durations the cursor never moves
    back, and after a sequence of submissions it stands no earlier than the
    clock reading of any of them plus that chunk's duration. *)
Theorem X7_cursor_never_moves_back (urls : list string)
  (subs : list Submission) (a : App) :
  Forall (fun s => 0 <= buf_duration (chunk s)) subs ->
  nextStartTimeRef a <= nextStartTimeRef (submitAll urls subs a) /\
  forall s, In s subs ->
    at_time s + buf_duration (chunk s) <= nextStartTimeRef (submitAll urls subs a).
Proof.
  revert a. induction subs as [|s r IH]; intros a Hd.
  - split; [apply Qle_refl | intros s []].
  - inversion Hd as [|? ? Hs Hr]; subst.
    rewrite submitAll_cons.
    destruct (IH (playAudioBuffer (at_time s) urls (chunk s) (asAudiobook s) a) Hr)
      as [Hmono Hall].
    rewrite play_cursor in Hmono.
    pose proof (Q.le_max_l (nextStartTimeRef a) (at_time s)).
    pose proof (Q.le_max_r (nextStartTimeRef a) (at_time s)).
    split; [lra|].
    intros s' [<-|Hin]; [lra | auto].
Qed.

Lemma X7_cursor_never_moves_back_witness :
  0 <= nextStartTimeRef
         (submitAll [] [mkSubmission 1 (mkBuffer 2 24000 1) false;
                        mkSubmission 7 (mkBuffer 2 24000 1) false] initialApp).
Proof.
  apply (X7_cursor_never_moves_back []
           [mkSubmission 1 (mkBuffer 2 24000 1) false;
            mkSubmission 7 (mkBuffer 2 24000 1) false] initialApp).
  repeat constructor; simpl; discriminate.
Defined.

Lemma consistent_initial : consistent initialApp.
Proof.
  split.
  - intros id Hin. exfalso. revert Hin. apply not_elem_of_empty.
  - intros id n Hn. simpl in Hn. rewrite lookup_empty in Hn. discriminate.
Qed.

Lemma consistent_play now urls buf flag a :
  consistent a -> consistent (playAudioBuffer now urls buf flag a).
Proof.
  intros [Hlive Hids]. split.
  - intros id. rewrite play_live, play_sources.
    intros Hin. apply elem_of_union in Hin as [Hin|Hin].
    + destruct (Hlive id Hin) as (n & Hn & Hc & Hs).
      exists n. split; [|auto].
      rewrite lookup_insert_ne; [exact Hn|].
      apply Hids in Hn. lia.
    + apply elem_of_singleton in Hin. subst.
      eexists. rewrite lookup_insert_eq. repeat split.
  - intros id n. rewrite play_sources, play_nextSourceId.
    destruct (decide (nextSourceId a = id)) as [<-|Hne].
    + intros _. lia.
    + rewrite lookup_insert_ne by exact Hne. intros Hn. apply Hids in Hn. lia.
Qed.

Lemma consistent_stopAll a : consistent a -> consistent (stopAllAudio a).
Proof.
  intros [Hlive Hids]. split.
  - intros id Hin. exfalso. revert Hin. apply not_elem_of_empty.
  - intros id n. rewrite stopAll_sources.
    change (nextSourceId (stopAllAudio a)) with (nextSourceId a).
    destruct (decide (id ∈ sourceNodesRef a)); [|apply Hids].
    destruct (sources a !! id) as [m|] eqn:E; [|discriminate].
    intros _. eapply Hids; eauto.
Qed.

Lemma sourceEnded_sources id a : sources (sourceEnded id a) = sources a.
Proof. unfold sourceEnded. destruct (_ && _); reflexivity. Qed.

Lemma sourceEnded_live id a :
  sourceNodesRef (sourceEnded id a) = sourceNodesRef a ∖ {[id]}.
Proof. unfold sourceEnded. destruct (_ && _); reflexivity. Qed.

Lemma sourceEnded_nextSourceId id a :
  nextSourceId (sourceEnded id a) = nextSourceId a.
Proof. unfold sourceEnded. destruct (_ && _); reflexivity. Qed.

Lemma consistent_ended id a : consistent a -> consistent (sourceEnded id a).
Proof.
  intros [Hlive Hids]. split.
  - intros x. rewrite sourceEnded_live, sourceEnded_sources.
    intros Hin. apply elem_of_difference in Hin as [Hin _]. auto.
  - intros x n. rewrite sourceEnded_sources, sourceEnded_nextSourceId. apply Hids.
Qed.

Lemma animate_audio f a :
  sources (animate f a) = sources a /\
  sourceNodesRef (animate f a) = sourceNodesRef a /\
  nextSourceId (animate f a) = nextSourceId a /\
  nextStartTimeRef (animate f a) = nextStartTimeRef a.
Proof.
  unfold animate, captionFrame, sceneFrame, sceneDraw, sceneStatic, sceneCycle.
  repeat match goal with
         | |- context [if ?b then _ else _] => destruct b
         | |- context [match ?x with _ => _ end] => destruct x
         end; repeat split.
Qed.

Lemma imageLoaded_audio a :
  sources (imageLoaded a) = sources a /\
  sourceNodesRef (imageLoaded a) = sourceNodesRef a /\
  nextSourceId (imageLoaded a) = nextSourceId a.
Proof. unfold imageLoaded. destruct (currentLoadedAudiobookImageRef a); repeat split. Qed.

Lemma consistent_step e a : consistent a -> consistent (step a e).
Proof.
  intros H. destruct e as [s urls|id| |f| ]; simpl.
  - now apply consistent_play.
  - now apply consistent_ended.
  - now apply consistent_stopAll.
  - destruct (animate_audio f a) as (E1 & E2 & E3 & _).
    unfold consistent. rewrite E1, E2, E3. exact H.
  - destruct (imageLoaded_audio a) as (E1 & E2 & E3).
    unfold consistent. rewrite E1, E2, E3. exact H.
Qed.

(** X8.  After any sequence of plays, ended events, stops, render frames
    and image loads on a freshly mounted component, every source in the
    active set exists, is connected and has not been stopped, and no source
    carries an identity that is still to be handed out. *)
Theorem X8_active_sources_are_playing (es : list Event) :
  consistent (run es initialApp).
Proof.
  unfold run. generalize consistent_initial. generalize initialApp.
  induction es as [|e r IH]; intros a Ha; simpl; [exact Ha|].
  apply IH. now apply consistent_step.
Qed.

(** X9.  Chunks handed to the scheduler at one clock reading, as the
    [forEach] of a fresh or resumed narration does, play back to back from
    [max(cursor, now)]: chunk [i] starts there plus the durations of the
    chunks before it.  When the cursor is not ahead of the clock (as after
    [stopAllAudio]), that is the clock reading plus those durations. *)
Theorem X9_chunks_in_one_go_play_back_to_back (a : App) (now : Q)
  (urls : list string) (flag : bool) (bufs : list AudioBuffer) (i : nat)
  (b : AudioBuffer) :
  Forall (fun b => 0 <= buf_duration b) bufs ->
  bufs !! i = Some b ->
  exists t,
    scheduledStart
      (submitAll urls (List.map (fun b => mkSubmission now b flag) bufs) a)
      (nextSourceId a + i) = Some t /\
    t == Qmax (nextStartTimeRef a) now
         + Qsum (List.map buf_duration (take i bufs)) /\
    (nextStartTimeRef a <= now ->
     t == now + Qsum (List.map buf_duration (take i bufs))).
Proof.
  intros Hd Hb.
  assert (exists t,
    scheduledStart
      (submitAll urls (List.map (fun b => mkSubmission now b flag) bufs) a)
      (nextSourceId a + i) = Some t /\
    t == Qmax (nextStartTimeRef a) now
         + Qsum (List.map buf_duration (take i bufs))) as (t & Et & Ht).
  { revert a i Hb. induction Hd as [|b0 r Hb0 Hr IH]; intros a i Hb; [discriminate|].
    destruct i as [|i]; simpl in Hb.
    - exists (Qmax (nextStartTimeRef a) now). split.
      + rewrite Nat.add_0_r. apply (submitAll_first urls (mkSubmission now b0 flag)).
      + simpl. symmetry. apply Qplus_0_r.
    - cbn [List.map]. rewrite submitAll_cons. cbn [at_time chunk asAudiobook].
      destruct (IH (playAudioBuffer now urls b0 flag a) i Hb) as (t & Et & Ht).
      rewrite play_nextSourceId, play_cursor in *.
      exists t. split.
      + now replace (nextSourceId a + S i)%nat with (S (nextSourceId a) + i)%nat by lia.
      + rewrite Ht. rewrite Qmax_first.
        * simpl. ring.
        * pose proof (Q.le_max_r (nextStartTimeRef a) now). lra. }
  exists t. split; [exact Et|]. split; [exact Ht|].
  intros Hle. rewrite Ht. rewrite (Qmax_second _ _ Hle). reflexivity.
Qed.

(** A narration of three chunks resumed at clock time 3 after a stop. *)
Lemma X9_chunks_in_one_go_play_back_to_back_witness :
  exists t,
    scheduledStart
      (submitAll []
         (List.map (fun b => mkSubmission 3 b true)
                   [mkBuffer 2 24000 1; mkBuffer 4 24000 1; mkBuffer 1 24000 1])
         (stopAllAudio initialApp))
      (0 + 2)%nat = Some t /\
    t == 3 + Qsum [2; 4].
Proof.
  destruct (X9_chunks_in_one_go_play_back_to_back (stopAllAudio initialApp) 3 [] true
              [mkBuffer 2 24000 1; mkBuffer 4 24000 1; mkBuffer 1 24000 1]
              2 (mkBuffer 1 24000 1))
    as (t & Et & _ & Ht).
  - repeat constructor; simpl; discriminate.
  - reflexivity.
  - exists t. split; [exact Et|]. apply Ht. simpl. discriminate.
Defined.

End SchedulerMore.

(** ** Scene crossfade: start, end and bounds of a fade *)

Section CrossfadeMore.
Import Player Render.

Lemma captionFrame_scene f a :
  audiobookFadeStateRef (captionFrame f a) = audiobookFadeStateRef a /\
  previousLoadedAudiobookImageRef (captionFrame f a) = previousLoadedAudiobookImageRef a /\
  currentLoadedAudiobookImageRef (captionFrame f a) = currentLoadedAudiobookImageRef a /\
  currentAudiobookSceneIndex (captionFrame f a) = currentAudiobookSceneIndex a /\
  lastSceneChangeTimestampRef (captionFrame f a) = lastSceneChangeTimestampRef a.
Proof.
  unfold captionFrame. destruct (_ && _ && _); [|repeat split].
  destruct (Karaoke.currentLineAndWord _ _). repeat split.
Qed.

Lemma progress_complete t fs :
  0 < fade_duration fs ->
  (Qle_bool 1 (fadeProgress t fs) = true <->
   fade_startTime fs + fade_duration fs <= t).
Proof.
  intros Hd. unfold fadeProgress. rewrite Qle_bool_iff, Q.min_glb_iff.
  split.
  - intros [_ H].
    assert ((t - fade_startTime fs) / fade_duration fs * fade_duration fs
            == t - fade_startTime fs) as E by (field; lra).
    apply (Qmult_le_compat_r _ _ (fade_duration fs)) in H; [|lra].
    rewrite E in H. lra.
  - intros H. split; [apply Qle_refl|].
    apply Qle_shift_div_l; [exact Hd | lra].
Qed.

(** X11.  While a narration plays without a video in front, an active fade
    of positive duration is left alone by every frame before its end (no new
    transition starts during it) and is cleared, together with the previous
    image, by the first frame at or after its start time plus its
    duration. *)
Theorem X11_fade_ends_after_its_duration (f : FrameInput) (a : App)
  (fs : FadeState) :
  videoShowing f = false -> isAudiobookPlaying a = true ->
  (0 < length (sceneUrls f))%nat ->
  audiobookFadeStateRef a = Some fs -> active fs = true ->
  0 < fade_duration fs ->
  (frame_time f < fade_startTime fs + fade_duration fs ->
   audiobookFadeStateRef (animate f a) = Some fs /\
   currentAudiobookSceneIndex (animate f a) = currentAudiobookSceneIndex a /\
   currentLoadedAudiobookImageRef (animate f a) = currentLoadedAudiobookImageRef a /\
   previousLoadedAudiobookImageRef (animate f a) = previousLoadedAudiobookImageRef a) /\
  (fade_startTime fs + fade_duration fs <= frame_time f ->
   audiobookFadeStateRef (animate f a) = None /\
   previousLoadedAudiobookImageRef (animate f a) = None /\
   currentAudiobookSceneIndex (animate f a) = currentAudiobookSceneIndex a /\
   currentLoadedAudiobookImageRef (animate f a) = currentLoadedAudiobookImageRef a).
Proof.
  intros Hvideo Hplay Hurls Hfade Hactive Hd.
  destruct (captionFrame_scene f (sceneFrame f a)) as (E1 & E2 & E3 & E4 & _).
  unfold animate. rewrite E1, E2, E3, E4. clear E1 E2 E3 E4.
  assert (sceneFrame f a = sceneDraw f a) as ->.
  { unfold sceneFrame. rewrite Hvideo, Hplay.
    replace (0 <? length (sceneUrls f))%nat with true
      by (symmetry; apply Nat.ltb_lt; exact Hurls).
    simpl. f_equal. unfold sceneCycle.
    destruct (_ && _); [|reflexivity].
    unfold fadeActive. rewrite Hfade, Hactive. reflexivity. }
  unfold sceneDraw. rewrite Hfade, Hactive.
  change (Qmin 1 ((frame_time f - fade_startTime fs) / fade_duration fs))
    with (fadeProgress (frame_time f) fs).
  pose proof (progress_complete (frame_time f) fs Hd) as Hp.
  destruct (Qle_bool 1 (fadeProgress (frame_time f) fs)) eqn:E.
  - split; [|intros _; repeat split].
    intros Hlt. exfalso. assert (true = true) as Ht by reflexivity.
    apply Hp in Ht. lra.
  - split; [intros _; repeat split; exact Hfade|].
    intros Hge. apply Hp in Hge. discriminate.
Qed.

(** A fade started at 10 with the fixed duration of 1 second, seen by a
    frame at 11. *)
Lemma X11_fade_ends_after_its_duration_witness :
  audiobookFadeStateRef
    (animate (mkFrame 11 false ["a.png"; "b.png"]%string [mkBuffer 5 24000 1] [] true)
       (run [Play (mkSubmission 0 (mkBuffer 5 24000 1) true) ["a.png"; "b.png"]%string;
             Frame (mkFrame 10 false ["a.png"; "b.png"]%string [mkBuffer 5 24000 1] [] true)]
            initialApp)) = None.
Proof.
  eapply (X11_fade_ends_after_its_duration
            (mkFrame 11 false ["a.png"; "b.png"]%string [mkBuffer 5 24000 1] [] true)
            (run [Play (mkSubmission 0 (mkBuffer 5 24000 1) true) ["a.png"; "b.png"]%string;
                  Frame (mkFrame 10 false ["a.png"; "b.png"]%string [mkBuffer 5 24000 1] [] true)]
                 initialApp)
            (mkFade true 10 FADE_DURATION_SECONDS (Some "a.png"%string) (Some "b.png"%string))).
  - reflexivity.
  - reflexivity.
  - simpl. lia.
  - vm_compute. reflexivity.
  - reflexivity.
  - reflexivity.
  - vm_compute. discriminate.
Defined.



Lemma sceneFrame_index f a U :
  sceneUrls f = U -> U <> [] ->
  (currentAudiobookSceneIndex a < length U)%nat ->
  (currentAudiobookSceneIndex (sceneFrame f a) < length U)%nat.
Proof.
  intros HU Hne Hidx. unfold sceneFrame.
  destruct (videoShowing f); [exact Hidx|].
  destruct (_ && _); [|exact Hidx].
  assert (currentAudiobookSceneIndex (sceneCycle f a) < length U)%nat as Hc.
  { unfold sceneCycle. destruct (_ && _); [|exact Hidx].
    destruct (_ && _); [|exact Hidx].
    destruct (Qle_bool _ _); [|exact Hidx].
    simpl. rewrite HU. apply Nat.mod_upper_bound.
    destruct U; [congruence | simpl; lia]. }
  unfold sceneDraw, sceneStatic.
  repeat match goal with
         | |- context [if ?b then _ else _] => destruct b
         | |- context [match ?x with _ => _ end] => destruct x
         end; exact Hc.
Qed.

(** X13.  When every frame of a session sees the same non-empty list of
    scene images, the current scene index addresses an image of that list
    after every event. *)
Theorem X13_scene_index_in_range (es : list Event) (U : list string) :
  U <> [] ->
  (forall f, In (Frame f) es -> sceneUrls f = U) ->
  (currentAudiobookSceneIndex (run es initialApp) < length U)%nat.
Proof.
  intros Hne.
  assert (currentAudiobookSceneIndex initialApp < length U)%nat as H0
    by (destruct U; [congruence | simpl; lia]).
  revert H0. unfold run. generalize initialApp.
  induction es as [|e r IH]; intros a Ha Hall; [exact Ha|].
  simpl. apply IH; [|intros f Hf; apply Hall; now right].
  destruct e as [s urls|id| |f| ]; simpl.
  - unfold playAudioBuffer. destruct (asAudiobook s); [|exact Ha].
    simpl. destruct U; [congruence | simpl; lia].
  - unfold sourceEnded. destruct (_ && _); exact Ha.
  - exact Ha.
  - destruct (captionFrame_scene f (sceneFrame f a)) as (_ & _ & _ & E & _).
    unfold animate. rewrite E. apply sceneFrame_index; auto.
    apply Hall. now left.
  - unfold imageLoaded. destruct (currentLoadedAudiobookImageRef a); exact Ha.
Qed.

Lemma X13_scene_index_in_range_witness :
  (currentAudiobookSceneIndex
     (run [Play (mkSubmission 0 (mkBuffer 5 24000 1) true) ["a.png"; "b.png"]%string;
           Frame (mkFrame 10 false ["a.png"; "b.png"]%string [mkBuffer 5 24000 1] [] true)]
          initialApp) < 2)%nat.
Proof.
  apply (X13_scene_index_in_range
           [Play (mkSubmission 0 (mkBuffer 5 24000 1) true) ["a.png"; "b.png"]%string;
            Frame (mkFrame 10 false ["a.png"; "b.png"]%string [mkBuffer 5 24000 1] [] true)]
           ["a.png"; "b.png"]%string).
  - discriminate.
  - intros f [H|[H|[]]]; [discriminate H|]. injection H as <-. reflexivity.
Defined.

(** X14.  During a fade of positive duration, at any frame that is not
    earlier than the fade's start, the progress lies between 0 and 1; the
    old and the new image are drawn with opacities between 0 and 1 that add
    up to 1, the old one at a scale between 0.95 and 1 and the new one at a
    scale between 1 and 1.05. *)
Theorem X14_fade_blend_bounds (t : Q) (fs : FadeState) :
  0 < fade_duration fs -> fade_startTime fs <= t ->
  let p := fadeProgress t fs in
  0 <= p <= 1 /\
  oldImageOpacity p + newImageOpacity p == 1 /\
  0 <= oldImageOpacity p <= 1 /\ 0 <= newImageOpacity p <= 1 /\
  0.95 <= oldImageScale p <= 1 /\ 1 <= newImageScale p <= 1.05.
Proof.
  intros Hd Ht p.
  assert (0 <= p <= 1) as [Hp0 Hp1].
  { unfold p, fadeProgress. split; [|apply Q.le_min_l].
    apply Q.min_glb; [discriminate|].
    apply Qle_shift_div_l; [exact Hd | lra]. }
  unfold oldImageOpacity, newImageOpacity, oldImageScale, newImageScale.
  repeat split; try lra.
Qed.

Lemma X14_fade_blend_bounds_witness :
  0 <= fadeProgress 10.5 (mkFade true 10 FADE_DURATION_SECONDS None None) <= 1.
Proof.
  apply (X14_fade_blend_bounds 10.5 (mkFade true 10 FADE_DURATION_SECONDS None None));
    vm_compute; [reflexivity | discriminate].
Defined.

End CrossfadeMore.
(** ** Renderer: colours, highlight, image placement, caption window *)

Section RenderMore.
Import Player Render.

Lemma byte_value_range b : (0 <= byte_value b <= 255)%Z.
Proof.
  unfold byte_value. pose proof (Byte.to_N_bounded b). lia.
Qed.

Lemma fold_amplitude_range data acc :
  (acc <= fold_left (fun acc d => acc + Z.abs (byte_value d - 128)) data acc
   <= acc + 128 * Z.of_nat (length data))%Z.
Proof.
  revert acc. induction data as [|d r IH]; intros acc; simpl; [lia|].
  specialize (IH (acc + Z.abs (byte_value d - 128))%Z).
  pose proof (byte_value_range d). lia.
Qed.

Lemma fold_frequency_range data acc :
  (acc <= fold_left (fun acc d => acc + byte_value d) data acc
   <= acc + 255 * Z.of_nat (length data))%Z.
Proof.
  revert acc. induction data as [|d r IH]; intros acc; simpl; [lia|].
  specialize (IH (acc + byte_value d)%Z).
  pose proof (byte_value_range d). lia.
Qed.

Lemma average_range (total bound : Z) (n : nat) :
  (0 < n)%nat -> (0 <= total <= bound * Z.of_nat n)%Z ->
  0 <= inject_Z total / inject_Z (Z.of_nat n) <= inject_Z bound.
Proof.
  intros Hn [Hlo Hhi].
  assert (0 < inject_Z (Z.of_nat n)) as Hpos.
  { change 0 with (inject_Z 0). rewrite <- Zlt_Qlt. lia. }
  split.
  - apply Qle_shift_div_l; [exact Hpos|]. rewrite Qmult_0_l.
    change 0 with (inject_Z 0). rewrite <- Zle_Qle. exact Hlo.
  - apply Qle_shift_div_r; [exact Hpos|].
    rewrite <- inject_Z_mult, <- Zle_Qle. exact Hhi.
Qed.

Lemma avgAmplitude_range data :
  data <> [] -> 0 <= avgAmplitude data <= 128.
Proof.
  intros Hne. unfold avgAmplitude, totalAmplitude.
  apply (average_range _ 128).
  - destruct data; [congruence | simpl; lia].
  - pose proof (fold_amplitude_range data 0). lia.
Qed.

Lemma avgFrequency_range data :
  data <> [] -> 0 <= avgFrequency data <= 255.
Proof.
  intros Hne. unfold avgFrequency, totalFrequency.
  apply (average_range _ 255).
  - destruct data; [congruence | simpl; lia].
  - pose proof (fold_frequency_range data 0). lia.
Qed.

(** X28.  For non-empty analyser arrays the averages stay in the byte
    ranges (amplitude 0..128, frequency 0..255), so the dynamic background
    has a hue in 0..360, a saturation in 50..100 and a lightness in 20..30,
    as the comments beside the formulas say, and the tint opacities stay in
    0.2..0.5 over a video and 0.1..0.3 over a scene image. *)
Theorem X28_audio_reactive_colour_ranges (dataArray frequencyDataArray : list Byte.byte) :
  dataArray <> [] -> frequencyDataArray <> [] ->
  0 <= avgAmplitude dataArray <= 128 /\
  0 <= avgFrequency frequencyDataArray <= 255 /\
  (exists h s l,
     baseBackgroundColor true dataArray frequencyDataArray = Hsl h s l /\
     backgroundHue true frequencyDataArray = h /\
     0 <= h <= 360 /\ 50 <= s <= 100 /\ 20 <= l <= 30) /\
  0.2 <= videoTintOpacity dataArray <= 0.5 /\
  0.1 <= sceneTintOpacity dataArray <= 0.3.
Proof.
  intros Hd Hf.
  pose proof (avgAmplitude_range dataArray Hd) as [Ha0 Ha1].
  pose proof (avgFrequency_range frequencyDataArray Hf) as [Hf0 Hf1].
  split; [split; assumption|]. split; [split; assumption|].
  assert (0 <= avgAmplitude dataArray / 128 <= 1) as [Hr0 Hr1].
  { split; [apply Qle_shift_div_l | apply Qle_shift_div_r]; lra. }
  assert (0 <= avgFrequency frequencyDataArray / 255 <= 1) as [Hq0 Hq1].
  { split; [apply Qle_shift_div_l | apply Qle_shift_div_r]; lra. }
  split; [|unfold videoTintOpacity, sceneTintOpacity; repeat split; lra].
  eexists. eexists. eexists.
  split; [reflexivity|]. split; [reflexivity|].
  repeat split; lra.
Qed.

Lemma X28_audio_reactive_colour_ranges_witness :
  0 <= avgAmplitude [Byte.xc8; Byte.x80] <= 128.
Proof.
  apply (X28_audio_reactive_colour_ranges [Byte.xc8; Byte.x80] [Byte.x0a]);
    discriminate.
Defined.



(** X27.  [drawImageTransform] places an image in "cover" style: for
    positive image and canvas sizes the drawn rectangle keeps the image's
    aspect ratio and is at least as wide and as high as the canvas, and at
    any scale of 1 or more it covers the whole canvas. *)
Theorem X27_image_covers_canvas (imgWidth imgHeight canvasWidth canvasHeight scale : Q) :
  0 < imgWidth -> 0 < imgHeight -> 0 < canvasWidth -> 0 < canvasHeight ->
  1 <= scale ->
  let r := drawImageTransform imgWidth imgHeight canvasWidth canvasHeight in
  let c := onCanvas canvasWidth canvasHeight scale r in
  rect_width r * imgHeight == rect_height r * imgWidth /\
  canvasWidth <= rect_width r /\ canvasHeight <= rect_height r /\
  rect_x c <= 0 /\ canvasWidth <= rect_x c + rect_width c /\
  rect_y c <= 0 /\ canvasHeight <= rect_y c + rect_height c.
Proof.
  intros Hiw Hih Hw Hh Hs r c. unfold c, r, onCanvas, drawImageTransform.
  destruct (Qlt_bool _ _) eqn:E; cbn [rect_x rect_y rect_width rect_height].
  - apply Qlt_bool_iff in E.
    set (dw := imgWidth / imgHeight * canvasHeight).
    assert (canvasWidth <= dw) as Hdw.
    { unfold dw. apply Qlt_le_weak.
      apply (Qmult_lt_r _ _ canvasHeight) in E; [|exact Hh].
      assert (canvasWidth / canvasHeight * canvasHeight == canvasWidth) as Ec
        by (field; lra).
      rewrite Ec in E. exact E. }
    assert (dw <= scale * dw) as Hsd.
    { rewrite <- (Qmult_1_l dw) at 1. apply Qmult_le_compat_r; lra. }
    assert (canvasHeight <= scale * canvasHeight) as Hsh.
    { rewrite <- (Qmult_1_l canvasHeight) at 1. apply Qmult_le_compat_r; lra. }
    split; [unfold dw; field; lra|].
    split; [exact Hdw|]. split; [apply Qle_refl|].
    assert (scale * ((canvasWidth - dw) / 2 - canvasWidth / 2) == - (scale * dw) * (1#2)) as E1
      by (field).
    assert (scale * (0 - canvasHeight / 2) == - (scale * canvasHeight) * (1#2)) as E2
      by (field).
    assert (canvasWidth / 2 == canvasWidth * (1#2)) as E3 by field.
    assert (canvasHeight / 2 == canvasHeight * (1#2)) as E4 by field.
    rewrite E1, E2, E3, E4. clear E E1 E2 E3 E4.
    set (sd := scale * dw) in *. set (sh := scale * canvasHeight) in *.
    clearbody sd sh dw. repeat split; lra.
  - assert (imgWidth / imgHeight <= canvasWidth / canvasHeight) as E'.
    { destruct (Qlt_le_dec (canvasWidth / canvasHeight) (imgWidth / imgHeight)) as [H|H];
        [|exact H].
      apply Qlt_bool_iff in H. congruence. }
    assert (0 < imgWidth / imgHeight) as Har
      by (apply Qlt_shift_div_l; [exact Hih | lra]).
    set (dh := canvasWidth / (imgWidth / imgHeight)).
    assert (canvasHeight <= dh) as Hdh.
    { unfold dh. apply Qle_shift_div_l; [exact Har|].
      apply (Qmult_le_compat_r _ _ canvasHeight) in E'; [|lra].
      assert (canvasWidth / canvasHeight * canvasHeight == canvasWidth) as Ec
        by (field; lra).
      rewrite Ec in E'. rewrite Qmult_comm. exact E'. }
    assert (dh <= scale * dh) as Hsd.
    { rewrite <- (Qmult_1_l dh) at 1. apply Qmult_le_compat_r; lra. }
    assert (canvasWidth <= scale * canvasWidth) as Hsw.
    { rewrite <- (Qmult_1_l canvasWidth) at 1. apply Qmult_le_compat_r; lra. }
    split; [unfold dh; field; split; lra|].
    split; [apply Qle_refl|]. split; [exact Hdh|].
    assert (scale * (0 - canvasWidth / 2) == - (scale * canvasWidth) * (1#2)) as E1
      by (field).
    assert (scale * ((canvasHeight - dh) / 2 - canvasHeight / 2) == - (scale * dh) * (1#2)) as E2
      by (field).
    assert (canvasWidth / 2 == canvasWidth * (1#2)) as E3 by field.
    assert (canvasHeight / 2 == canvasHeight * (1#2)) as E4 by field.
    rewrite E1, E2, E3, E4. clear E E' Har E1 E2 E3 E4.
    set (sd := scale * dh) in *. set (sw := scale * canvasWidth) in *.
    clearbody sd sw dh. repeat split; lra.
Qed.

Lemma X27_image_covers_canvas_witness :
  1280 <= rect_width (drawImageTransform 4000 1000 1280 720).
Proof.
  apply (X27_image_covers_canvas 4000 1000 1280 720 1); reflexivity || discriminate.
Defined.

End RenderMore.
Section CaptionWindow.
Import Render.

Lemma consecutive_length s n : length (consecutive s n) = n.
Proof. unfold consecutive. now rewrite List.length_map, List.length_seq. Qed.

Lemma consecutive_cons s n :
  consecutive s (S n) = s :: consecutive (s + 1) n.
Proof.
  unfold consecutive. cbn [List.seq List.map]. f_equal; [lia|].
  rewrite <- List.seq_shift, List.map_map.
  apply List.map_ext. intros k. lia.
Qed.

Lemma consecutive_snoc s n :
  consecutive s (S n) = consecutive s n ++ [(s + Z.of_nat n)%Z].
Proof.
  unfold consecutive. rewrite List.seq_S, List.map_app. reflexivity.
Qed.

Lemma last_snoc {A} (l : list A) x :
  List.last (List.map Some (l ++ [x])) None = Some x.
Proof.
  rewrite List.map_app. simpl. apply List.last_last.
Qed.

(** The first loop extends a run of consecutive indices to the front while
    it is shorter than the window and does not start at 0. *)
Lemma growFront_consecutive fuel s n :
  (1 <= n)%nat -> (0 <= s)%Z ->
  growFront fuel (consecutive s n)
  = consecutive (s - Z.of_nat (Nat.min fuel (Nat.min (3 - n) (Z.to_nat s))))
                (n + Nat.min fuel (Nat.min (3 - n) (Z.to_nat s))).
Proof.
  revert s n. induction fuel as [|fuel IH]; intros s n Hn Hs.
  - simpl. f_equal; lia.
  - destruct n as [|n]; [lia|].
    rewrite (consecutive_cons s n) at 1. cbn [growFront].
    rewrite <- consecutive_cons, consecutive_length. unfold visibleLines.
    destruct (Z.ltb_spec (Z.of_nat (S n)) 3), (Z.ltb_spec 0 s); cbn [andb].
    + replace ((s - 1)%Z :: consecutive s (S n)) with (consecutive (s - 1) (S (S n)))
        by (rewrite (consecutive_cons (s - 1)); do 2 f_equal; lia).
      rewrite IH by lia. f_equal; lia.
    + f_equal; lia.
    + f_equal; lia.
    + f_equal; lia.
Qed.

(** The second loop extends it to the back while it is shorter than the
    window and does not end at the last line. *)
Lemma growBack_consecutive fuel total s n :
  (1 <= n)%nat ->
  growBack fuel total (consecutive s n)
  = consecutive s (n + Nat.min fuel
                         (Nat.min (3 - n) (Z.to_nat (total - s - Z.of_nat n)))).
Proof.
  revert n. induction fuel as [|fuel IH]; intros n Hn.
  - simpl. f_equal; lia.
  - destruct n as [|n]; [lia|].
    rewrite (consecutive_snoc s n) at 1. cbn [growBack].
    rewrite last_snoc, <- consecutive_snoc, consecutive_length. unfold visibleLines.
    destruct (Z.ltb_spec (Z.of_nat (S n)) 3),
             (Z.ltb_spec (s + Z.of_nat n) (total - 1)); cbn [andb].
    + replace (consecutive s (S n) ++ [(s + Z.of_nat n + 1)%Z])
        with (consecutive s (S (S n)))
        by (rewrite (consecutive_snoc s (S n)); do 2 f_equal; lia).
      rewrite IH by lia. f_equal; lia.
    + f_equal; lia.
    + f_equal; lia.
    + f_equal; lia.
Qed.

(** X25.  For a current line [c] of a table of [total] lines, the caption
    overlay shows [min(3, total)] consecutive lines that include [c]: the
    line before it, the line itself and the line after it, shifted as far
    as needed to stay inside the table. *)
Theorem X25_caption_window (currentLineIndex total : Z) :
  (0 <= currentLineIndex < total)%Z ->
  linesToDisplayIndices currentLineIndex total
  = consecutive (Z.max 0 (Z.min (currentLineIndex - 1) (total - 3)))
                (Z.to_nat (Z.min 3 total)) /\
  In currentLineIndex (linesToDisplayIndices currentLineIndex total).
Proof.
  intros Hc.
  assert (linesToDisplayIndices currentLineIndex total
          = consecutive (Z.max 0 (Z.min (currentLineIndex - 1) (total - 3)))
                        (Z.to_nat (Z.min 3 total))) as E.
  { unfold linesToDisplayIndices, visibleLines.
    replace (currentLineIndex =? -1)%Z with false by (symmetry; apply Z.eqb_neq; lia).
    change (3 / 2)%Z with 1%Z. change (Z.to_nat 3) with 3%nat.
    set (s := Z.max 0 (currentLineIndex - 1)).
    set (e := Z.min (total - 1) (s + 3 - 1)).
    change (List.map (fun k => (s + Z.of_nat k)%Z) (List.seq 0 (Z.to_nat (e - s + 1))))
      with (consecutive s (Z.to_nat (e - s + 1))).
    rewrite growFront_consecutive by (unfold e, s; lia).
    rewrite growBack_consecutive by (unfold e, s; lia).
    unfold e, s. f_equal; lia. }
  split; [exact E|]. rewrite E. unfold consecutive.
  apply List.in_map_iff.
  exists (Z.to_nat (currentLineIndex - Z.max 0 (Z.min (currentLineIndex - 1) (total - 3)))).
  split; [lia|]. apply List.in_seq. lia.
Qed.

(** The last line of a table of five. *)
Lemma X25_caption_window_witness :
  linesToDisplayIndices 4 5 = [2; 3; 4]%Z.
Proof.
  destruct (X25_caption_window 4 5) as [E _]; [lia|].
  rewrite E. reflexivity.
Defined.

End CaptionWindow.
(** ** PCM conversion *)

Section PcmFacts.
Import JsString AudioUtils.

Lemma Qtrunc_nonneg q :
  0 <= q -> (0 <= Qtrunc q)%Z /\ inject_Z (Qtrunc q) <= q /\ q < inject_Z (Qtrunc q) + 1.
Proof.
  destruct q as [n d]. unfold Qle, Qlt, Qtrunc. simpl. intros Hq.
  assert (0 <= n)%Z as Hn by lia.
  pose proof (Z.quot_rem' n (Z.pos d)) as E.
  pose proof (Z.rem_bound_pos n (Z.pos d) Hn ltac:(lia)) as Hr.
  pose proof (Z.quot_pos n (Z.pos d) Hn ltac:(lia)) as Hp.
  split; [exact Hp|]. split; nia.
Qed.

Lemma Qtrunc_nonpos q :
  q <= 0 -> (Qtrunc q <= 0)%Z /\ q <= inject_Z (Qtrunc q) /\ inject_Z (Qtrunc q) - 1 < q.
Proof.
  destruct q as [n d]. unfold Qle, Qlt, Qtrunc. simpl. intros Hq.
  assert (n <= 0)%Z as Hn by lia.
  pose proof (Z.quot_rem' n (Z.pos d)) as E.
  pose proof (Z.rem_bound_pos_neg n (Z.pos d) ltac:(lia) Hn) as Hr.
  assert (Z.quot n (Z.pos d) <= 0)%Z as Hp by nia.
  split; [exact Hp|]. split; nia.
Qed.

Lemma clampSample_range x : -1 <= clampSample x <= 1.
Proof.
  unfold clampSample. split; [apply Q.le_max_l|].
  apply Q.max_lub; [discriminate | apply Q.le_min_l].
Qed.

Lemma Qtrunc_scaled_range c :
  -1 <= c <= 1 -> (-32767 <= Qtrunc (c * 32767) <= 32767)%Z.
Proof.
  intros [Hlo Hhi].
  destruct (Qlt_le_dec (c * 32767) 0) as [Hneg|Hpos].
  - destruct (Qtrunc_nonpos (c * 32767)) as (H1 & H2 & _); [lra|].
    split; [|lia].
    assert (inject_Z (-32767) <= inject_Z (Qtrunc (c * 32767))) as H
      by (change (inject_Z (-32767)) with (-32767); lra).
    now rewrite <- Zle_Qle in H.
  - destruct (Qtrunc_nonneg (c * 32767) Hpos) as (H1 & H2 & _).
    split; [lia|].
    assert (inject_Z (Qtrunc (c * 32767)) <= inject_Z 32767) as H
      by (change (inject_Z 32767) with 32767; lra).
    now rewrite <- Zle_Qle in H.
Qed.

Lemma toInt16_small q :
  (-32768 <= Qtrunc q < 32768)%Z -> toInt16 q = Qtrunc q.
Proof.
  intros H. unfold toInt16.
  destruct (Z.ltb_spec (Qtrunc q mod 65536) 32768);
    Z.to_euclidean_division_equations; lia.
Qed.

Lemma floatToPcm16_spec (x : Q) :
  floatToPcm16 x = Qtrunc (clampSample x * 32767) /\
  (-32767 <= floatToPcm16 x <= 32767)%Z.
Proof.
  pose proof (Qtrunc_scaled_range _ (clampSample_range x)) as Hr.
  assert (floatToPcm16 x = Qtrunc (clampSample x * 32767)) as E
    by (apply toInt16_small; lia).
  split; [exact E | rewrite E; exact Hr].
Qed.

(** X20.  Converting a sample to 16-bit PCM never wraps around: the stored
    value is the integer part of the clamped sample times 32767 and lies
    between -32767 and 32767; samples of 1 or more give 32767 and samples of
    -1 or less give -32767. *)
Theorem X20_pcm16_conversion_saturates (x : Q) :
  floatToPcm16 x = Qtrunc (clampSample x * 32767) /\
  (-32767 <= floatToPcm16 x <= 32767)%Z /\
  (1 <= x -> floatToPcm16 x = 32767%Z) /\
  (x <= -1 -> floatToPcm16 x = (-32767)%Z).
Proof.
  destruct (floatToPcm16_spec x) as [E Hr].
  split; [exact E|]. split; [exact Hr|]. split.
  - intros Hx. unfold floatToPcm16, clampSample.
    replace (Qmin 1 x) with 1; [reflexivity|].
    unfold Qmin, GenericMinMax.gmin.
    destruct (1 ?= x) eqn:C; try reflexivity.
    apply Qgt_alt in C. exfalso. lra.
  - intros Hx. unfold floatToPcm16, clampSample.
    replace (Qmin 1 x) with x.
    + replace (Qmax (-1) x) with (-1); [reflexivity|].
      unfold Qmax, GenericMinMax.gmax.
      destruct (-1 ?= x) eqn:C; try reflexivity.
      apply Qlt_alt in C. exfalso. lra.
    + unfold Qmin, GenericMinMax.gmin.
      destruct (1 ?= x) eqn:C; try reflexivity.
      * apply Qeq_alt in C. exfalso. lra.
      * apply Qlt_alt in C. exfalso. lra.
Qed.

Lemma X20_pcm16_conversion_saturates_witness :
  floatToPcm16 1.5 = 32767%Z.
Proof.
  destruct (X20_pcm16_conversion_saturates 1.5) as (_ & _ & H & _).
  apply H. discriminate.
Defined.

Lemma int16_bytes_roundtrip z r :
  (-32768 <= z < 32768)%Z ->
  int16s_of_bytes (int16_bytes z ++ r)
  = match int16s_of_bytes r with Some l => Some (z :: l) | None => None end.
Proof.
  intros Hz. unfold int16_bytes. cbn [List.app int16s_of_bytes].
  replace (signed16 _) with z; [reflexivity|].
  unfold signed16. rewrite !Z2N.id by (Z.to_euclidean_division_equations; lia).
  destruct (Z.ltb_spec ((z mod 65536) mod 256 + 256 * ((z mod 65536) / 256)) 32768);
    Z.to_euclidean_division_equations; lia.
Qed.

Lemma int16_bytes_small z :
  Forall (fun b => (b < 256)%N) (int16_bytes z).
Proof.
  unfold int16_bytes. repeat constructor;
    apply N2Z.inj_lt; rewrite Z2N.id;
    Z.to_euclidean_division_equations; lia.
Qed.

Lemma pcmBinary_decodes (data : list Q) :
  int16s_of_bytes (pcmBinary data) = Some (List.map floatToPcm16 data).
Proof.
  unfold pcmBinary. induction data as [|x r IH]; [reflexivity|].
  rewrite !List.map_cons, List.concat_cons.
  rewrite int16_bytes_roundtrip, IH; [reflexivity|].
  destruct (floatToPcm16_spec x) as (_ & H). lia.
Qed.

(** X21.  The binary string [createPcmBlob] hands to [btoa] holds two
    characters per sample, each with a code below 256, and read back as an
    [Int16Array] it gives the 16-bit PCM value of every sample, in order. *)
Theorem X21_pcm_binary_round_trip (data : list Q) :
  length (pcmBinary data) = (2 * length data)%nat /\
  Forall (fun code => (code < 256)%N) (pcmBinary data) /\
  int16s_of_bytes (pcmBinary data) = Some (List.map floatToPcm16 data).
Proof.
  split; [|split; [|apply pcmBinary_decodes]];
    unfold pcmBinary; induction data as [|x r IH];
    try rewrite !List.map_cons, List.concat_cons.
  - reflexivity.
  - unfold char in *. rewrite List.length_app, IH. simpl. lia.
  - constructor.
  - apply List.Forall_app. split; [apply int16_bytes_small | exact IH].
Qed.

End PcmFacts.
Section DecodeFacts.
Import JsString AudioUtils.












Lemma duration_positive buf :
  (1 <= frames buf)%nat -> (0 < pcm_sampleRate buf)%N ->
  0 < Player.buf_duration (toAudioBuffer buf).
Proof.
  intros Hf Hr. unfold toAudioBuffer, duration. simpl.
  apply Qlt_shift_div_l.
  - change 0 with (inject_Z 0). rewrite <- Zlt_Qlt. lia.
  - rewrite Qmult_0_l. change 0 with (inject_Z 0). rewrite <- Zlt_Qlt. lia.
Qed.

End DecodeFacts.
(** ** MP3 export *)

Section Mp3Facts.
Import AudioUtils.

(** The frames cut from a sample array: together they are the array, none
    is empty or longer than the frame size, and all but the last are full. *)
Lemma subarrays_spec size fuel l :
  (1 <= size)%nat -> (length l <= fuel)%nat ->
  List.concat (subarrays fuel size l) = l /\
  Forall (fun c => (1 <= length c <= size)%nat) (subarrays fuel size l) /\
  forall i c, subarrays fuel size l !! i = Some c ->
              (S i < length (subarrays fuel size l))%nat -> length c = size.
Proof.
  intros Hsize. revert l. induction fuel as [|fuel IH]; intros l Hlen.
  - destruct l; [|simpl in Hlen; lia]. repeat split; [constructor | intros ? ? H; discriminate H].
  - destruct l as [|x r].
    + repeat split; [constructor | intros ? ? H; discriminate H].
    + cbn [subarrays].
      set (l := x :: r) in *.
      assert (length (skipn size l) <= fuel)%nat as Hrest.
      { rewrite List.length_skipn. unfold l in *. simpl in *. lia. }
      destruct (IH (skipn size l) Hrest) as (Hc & Hall & Hfull).
      split; [|split].
      * cbn [List.concat]. rewrite Hc. apply List.firstn_skipn.
      * constructor; [|exact Hall].
        rewrite List.length_firstn. unfold l. simpl. lia.
      * intros i c Hi Hlast. destruct i as [|i]; simpl in Hi.
        -- injection Hi as <-. rewrite List.length_firstn.
           cbn [length] in Hlast.
           destruct (subarrays fuel size (skipn size l)) as [|c' cs] eqn:E;
             [simpl in Hlast; lia|].
           assert (skipn size l <> []) as Hne.
           { intros Hnil. rewrite Hnil in E. destruct fuel; discriminate E. }
           assert (size < length l)%nat; [|lia].
           destruct (Nat.lt_ge_cases size (length l)) as [H|H]; [exact H|].
           exfalso. apply Hne. now apply List.skipn_all2.
        -- apply (Hfull i c Hi). cbn [length] in Hlast. lia.
Qed.

Lemma encodeFrames_outputs lame st chunks :
  snd (encodeFrames lame st chunks) = snd (encoderOutputs lame st chunks) /\
  List.concat (fst (encodeFrames lame st chunks))
  = List.concat (fst (encoderOutputs lame st chunks)) /\
  Forall (fun b => b <> []) (fst (encodeFrames lame st chunks)).
Proof.
  revert st. induction chunks as [|c r IH]; intros st; simpl.
  - repeat split. constructor.
  - destruct (encodeBuffer lame st c) as [out st1].
    specialize (IH st1).
    destruct (encodeFrames lame st1 r) as [rest st2].
    destruct (encoderOutputs lame st1 r) as [outs st2'].
    simpl in *. destruct IH as (E1 & E2 & E3).
    split; [exact E1|].
    destruct out as [|b out]; simpl; [split; assumption|].
    split; [now rewrite E2|]. constructor; [discriminate | exact E3].
Qed.

Lemma concat_blobs (parts : list (list Byte.byte)) :
  List.concat (List.map Capture.bytes (List.map (fun b => Capture.mkBlob b "") parts))
  = List.concat parts.
Proof.
  rewrite List.map_map. simpl. now rewrite List.map_id.
Qed.

(** X24.  Without the lamejs library the MP3 export fails at once.  With
    it, the encoder is fed channel 0 of all buffers, converted to 16-bit
    PCM, in frames of 1152 samples of which only the last may be shorter and
    none is empty; every sample is fed exactly once and in order.  The
    result is one [audio/mpeg] blob holding the encoder's outputs in order
    followed by what [flush] returns, or the empty-file error when that is
    no byte at all. *)
Theorem X24_mp3_export (Lame : option LameEncoder) (audioBuffers : list PcmBuffer)
  (sampleRate : N) (numChannels : nat) :
  (Lame = None ->
   encodePCMToMP3 Lame audioBuffers sampleRate numChannels = inl LameNotLoaded) /\
  List.concat (mp3Frames audioBuffers) = pcm16 audioBuffers /\
  Forall (fun c => (1 <= length c <= 1152)%nat) (mp3Frames audioBuffers) /\
  (forall i c, mp3Frames audioBuffers !! i = Some c ->
               (S i < length (mp3Frames audioBuffers))%nat -> length c = 1152%nat) /\
  (forall lame, Lame = Some lame ->
     let '(outs, st) :=
       encoderOutputs lame (lame_new lame sampleRate numChannels)
                      (mp3Frames audioBuffers) in
     let file := List.concat outs ++ flush lame st in
     match file with
     | [] => encodePCMToMP3 Lame audioBuffers sampleRate numChannels = inl EmptyMp3
     | _ :: _ =>
         encodePCMToMP3 Lame audioBuffers sampleRate numChannels
         = inr (Capture.mkBlob file "audio/mpeg")
     end).
Proof.
  split; [intros ->; reflexivity|].
  destruct (subarrays_spec MAX_CHUNK_SIZE (length (pcm16 audioBuffers))
              (pcm16 audioBuffers)) as (Hc & Hall & Hfull);
    [unfold MAX_CHUNK_SIZE; lia | lia |].
  split; [exact Hc|]. split; [exact Hall|]. split; [exact Hfull|].
  intros lame ->. unfold encodePCMToMP3.
  pose proof (encodeFrames_outputs lame (lame_new lame sampleRate numChannels)
                (mp3Frames audioBuffers)) as (E1 & E2 & _).
  destruct (encodeFrames lame _ (mp3Frames audioBuffers)) as [encoded st].
  destruct (encoderOutputs lame _ (mp3Frames audioBuffers)) as [outs st'].
  simpl in E1, E2. subst st'.
  set (tail := flush lame st).
  assert (List.concat (if (0 <? length tail)%nat then encoded ++ [tail] else encoded)
          = List.concat outs ++ tail) as Efile.
  { destruct tail as [|b t]; simpl.
    - now rewrite List.app_nil_r.
    - rewrite List.concat_app, E2. simpl. now rewrite List.app_nil_r. }
  unfold Capture.newBlob. rewrite concat_blobs, Efile.
  destruct (List.concat outs ++ tail); reflexivity.
Qed.

(** Two buffers of 1000 and 500 samples through the toy encoder. *)
Lemma X24_mp3_export_witness :
  List.map (@length Z)
    (mp3Frames [mkPcm [repeat 0 1000] 1000 24000; mkPcm [repeat 0 500] 500 24000])
  = [1152; 348]%nat /\
  exists blob,
    encodePCMToMP3 (Some byteEncoder)
      [mkPcm [repeat 0 1000] 1000 24000; mkPcm [repeat 0 500] 500 24000] 24000 1
    = inr blob /\ Capture.size blob = 1500%nat.
Proof.
  split; [vm_compute; reflexivity|].
  destruct (X24_mp3_export (Some byteEncoder)
              [mkPcm [repeat 0 1000] 1000 24000; mkPcm [repeat 0 500] 500 24000]
              24000 1) as (_ & _ & _ & _ & H).
  specialize (H byteEncoder eq_refl).
  eexists. split; [vm_compute in H |- *; reflexivity | vm_compute; reflexivity].
Defined.

End Mp3Facts.

(** ** Live transcription *)

Section LiveFacts.
Import JsString Live.




End LiveFacts.
(** ** Video capture: bytes and start conditions *)

Section CaptureMore.
Import Capture.

Lemma kept_bytes (emitted : list Blob) :
  List.concat (List.map bytes (List.filter (fun d => (0 <? size d)%nat) emitted))
  = List.concat (List.map bytes emitted).
Proof.
  induction emitted as [|d r IH]; [reflexivity|].
  simpl. unfold size at 1.
  destruct (bytes d) as [|b bs] eqn:E; simpl; [exact IH|].
  now rewrite E, IH.
Qed.

Lemma kept_none (emitted : list Blob) :
  List.filter (fun d => (0 <? size d)%nat) emitted = []
  <-> Forall (fun d => size d = 0%nat) emitted.
Proof.
  induction emitted as [|d r IH]; simpl.
  - split; [constructor | reflexivity].
  - destruct (Nat.ltb_spec 0 (size d)).
    + split; [discriminate|]. intros H'. inversion H'; subst. lia.
    + rewrite IH. split.
      * intros Hr. constructor; [lia | exact Hr].
      * intros H'. now inversion H'.
Qed.

Lemma concat_size (emitted : list Blob) :
  length (List.concat (List.map bytes emitted)) = list_sum (List.map size emitted).
Proof.
  induction emitted as [|d r IH]; [reflexivity|].
  simpl. rewrite List.length_app, IH. reflexivity.
Qed.

(** X15.  For a recording that started, stopping reports the empty-capture
    error exactly when every chunk the recorder emitted was empty.
    Otherwise the blob holds the bytes of all emitted chunks in arrival
    order (dropping the empty ones loses nothing), its size is the sum of
    the chunk sizes and is not zero, and its type is the container type of
    the selected codec. *)
Theorem X15_capture_keeps_every_byte (env : Surroundings)
  (res codec rate : string) (r0 : Recording) (emitted : list Blob) :
  startRecordingVideo env res codec rate = inr r0 ->
  (record env res codec rate emitted = inl EmptyCapture
   <-> Forall (fun d => size d = 0%nat) emitted) /\
  (forall blob, record env res codec rate emitted = inr blob ->
     bytes blob = List.concat (List.map bytes emitted) /\
     size blob = list_sum (List.map size emitted) /\
     (0 < size blob)%nat /\
     type blob = mimeType (selectedCodec r0)).
Proof.
  intros Hstart. rewrite (record_spec env res codec rate r0 emitted Hstart).
  pose proof (kept_bytes emitted) as Hb.
  pose proof (kept_none emitted) as Hn.
  destruct (List.filter _ emitted) as [|k ks] eqn:E.
  - split; [split; [intros _; now apply Hn | reflexivity] | discriminate].
  - split.
    + split; [discriminate|]. intros Hall. apply Hn in Hall. discriminate.
    + intros blob [= <-].
      assert (In k (List.filter (fun d => (0 <? size d)%nat) emitted)) as Hk
        by (rewrite E; now left).
      apply List.filter_In in Hk as [_ Hpos]. apply Nat.ltb_lt in Hpos.
      pose proof (concat_size emitted) as Hs.
      unfold size in *. cbn [bytes type].
      change (List.concat (List.map bytes (k :: ks))) with
        (bytes k ++ List.concat (List.map bytes ks)) in Hb.
      split; [exact Hb|]. split; [now rewrite Hb|].
      split; [rewrite List.length_app; lia | reflexivity].
Qed.

Lemma X15_capture_keeps_every_byte_witness :
  record (mkSurroundings true true false true true true) "720p" "webm" "2000k"
         [mkBlob [] ""; mkBlob [] ""] = inl EmptyCapture.
Proof.
  apply (X15_capture_keeps_every_byte
           (mkSurroundings true true false true true true) "720p" "webm" "2000k" _
           [mkBlob [] ""; mkBlob [] ""] eq_refl).
  repeat constructor.
Defined.




End CaptureMore.

(** ** Retry client: any budget, and the errors it can return *)

Section RetryMore.
Import Player Tts.

Lemma attempt_loop_failures service maxRetries n :
  forall a audioBuffers trace,
    (a + n <= maxRetries)%nat ->
    (forall i, (a <= i < a + n)%nat -> failure (service i) <> None) ->
    attempt_loop service maxRetries a audioBuffers trace
    = attempt_loop service maxRetries (a + n)
        (audioBuffers ++ List.flat_map (fun i => decoded (service i)) (List.seq a n))
        (trace ++ List.flat_map
                    (fun i => [Request i; Sleep (2 ^ Z.of_nat i * 1000)%Z])
                    (List.seq a n)).
Proof.
  induction n as [|n IH]; intros a bufs trace Hle Hfail.
  - simpl. now rewrite Nat.add_0_r, !List.app_nil_r.
  - rewrite attempt_loop_turn.
    destruct (decide (a <= maxRetries)%nat); [|lia].
    destruct (failure (service a)) as [e|] eqn:E; [|exfalso; apply (Hfail a); [lia | exact E]].
    destruct (decide (a < maxRetries)%nat); [|lia].
    rewrite IH by (try lia; intros i Hi; apply Hfail; lia).
    replace (S a + n)%nat with (a + S n)%nat by lia.
    cbn [List.seq List.flat_map]. now rewrite <- !List.app_assoc.
Qed.

Lemma effects_of_failures a k :
  sleeps (List.flat_map (fun i => [Request i; Sleep (2 ^ Z.of_nat i * 1000)%Z])
                        (List.seq a k))
  = List.map (fun i => (2 ^ Z.of_nat i * 1000)%Z) (List.seq a k) /\
  requests (List.flat_map (fun i => [Request i; Sleep (2 ^ Z.of_nat i * 1000)%Z])
                          (List.seq a k))
  = List.seq a k.
Proof.
  revert a. induction k as [|k IH]; intros a; [split; reflexivity|].
  destruct (IH (S a)) as [E1 E2]. unfold sleeps, requests in *.
  cbn [List.seq List.flat_map]. rewrite !omap_app, E1, E2. split; reflexivity.
Qed.

Lemma sleeps_retryTrace k :
  sleeps (retryTrace k) = List.map (fun i => (2 ^ Z.of_nat i * 1000)%Z) (List.seq 0 k) /\
  requests (retryTrace k) = List.seq 0 (S k).
Proof.
  destruct (effects_of_failures 0 k) as [E1 E2].
  unfold retryTrace, sleeps, requests in *. rewrite !omap_app, E1, E2.
  split; [apply List.app_nil_r | now rewrite List.seq_S].
Qed.

Lemma backoff_total k a :
  Zsum (List.map (fun i => (2 ^ Z.of_nat i * 1000)%Z) (List.seq a k))
  = (1000 * 2 ^ Z.of_nat a * (2 ^ Z.of_nat k - 1))%Z.
Proof.
  revert a. induction k as [|k IH]; intros a; simpl List.seq; simpl List.map.
  - simpl. lia.
  - cbn [Zsum fold_right]. fold (Zsum (List.map (fun i => (2 ^ Z.of_nat i * 1000)%Z)
                                          (List.seq (S a) k))).
    rewrite IH. rewrite !Nat2Z.inj_succ, !Z.pow_succ_r by lia. lia.
Qed.

(** X17.  For any retry budget: when the first [k] requests fail and [k]
    is within the budget, the client has sent requests 0 to [k] and waited
    [2^i] seconds after failure [i], in total [2^k - 1] seconds.  If request
    [k] succeeds it returns every buffer decoded during requests 0 to [k];
    if it fails and the budget is used up ([k = maxRetries]) it throws that
    request's error. *)
Theorem X17_backoff_for_any_budget (service : nat -> Attempt)
  (maxRetries k : nat) (cached : bool) (API_KEY : option string) :
  getGeminiClient cached API_KEY = None ->
  (k <= maxRetries)%nat ->
  (forall i, (i < k)%nat -> failure (service i) <> None) ->
  (failure (service k) = None ->
   generateTextToSpeech service maxRetries cached API_KEY
   = (retryTrace k,
      Returned (List.flat_map (fun i => decoded (service i)) (List.seq 0 (S k))))) /\
  (forall e, k = maxRetries -> failure (service k) = Some e ->
   generateTextToSpeech service maxRetries cached API_KEY
   = (retryTrace k, Thrown e)) /\
  requests (retryTrace k) = List.seq 0 (S k) /\
  sleeps (retryTrace k) = List.map (fun i => (2 ^ Z.of_nat i * 1000)%Z) (List.seq 0 k) /\
  Zsum (sleeps (retryTrace k)) = (1000 * (2 ^ Z.of_nat k - 1))%Z.
Proof.
  intros Hclient Hk Hfail.
  assert (generateTextToSpeech service maxRetries cached API_KEY
          = attempt_loop service maxRetries k
              (List.flat_map (fun i => decoded (service i)) (List.seq 0 k))
              (List.flat_map (fun i => [Request i; Sleep (2 ^ Z.of_nat i * 1000)%Z])
                             (List.seq 0 k))) as E.
  { unfold generateTextToSpeech. rewrite Hclient.
    rewrite (attempt_loop_failures service maxRetries k 0) by
      (try lia; intros i Hi; apply Hfail; lia).
    reflexivity. }
  destruct (sleeps_retryTrace k) as [Es Er].
  split; [|split; [|split; [exact Er | split; [exact Es|]]]].
  - intros Hok. rewrite E, attempt_loop_turn.
    destruct (decide (k <= maxRetries)%nat); [|lia].
    rewrite Hok. unfold retryTrace. f_equal. f_equal.
    rewrite List.seq_S, List.flat_map_app. simpl. now rewrite List.app_nil_r.
  - intros e -> He. rewrite E, attempt_loop_turn.
    destruct (decide (maxRetries <= maxRetries)%nat); [|lia].
    rewrite He. destruct (decide (maxRetries < maxRetries)%nat); [lia|].
    reflexivity.
  - rewrite Es, backoff_total. simpl. lia.
Qed.

(** A budget of four retries, success on the fourth request. *)
Lemma X17_backoff_for_any_budget_witness :
  generateTextToSpeech
    (fun n => if (n <? 3)%nat then mkAttempt [] (Some (Upstream "busy"))
              else mkAttempt [Some (mkBuffer 2 24000 1)] None)
    4 true None
  = (retryTrace 3, Returned [mkBuffer 2 24000 1]).
Proof.
  destruct (X17_backoff_for_any_budget
              (fun n => if (n <? 3)%nat then mkAttempt [] (Some (Upstream "busy"))
                        else mkAttempt [Some (mkBuffer 2 24000 1)] None)
              4 3 true None eq_refl) as (H & _).
  - lia.
  - intros i Hi. destruct i as [|[|[|i]]]; [discriminate..|lia].
  - exact (H eq_refl).
Defined.

Lemma attempt_loop_never_falls_through service maxRetries n :
  forall a audioBuffers trace,
    (maxRetries - a = n)%nat -> (a <= maxRetries)%nat ->
    (forall i, failure (service i) <> Some AfterRetries) ->
    snd (attempt_loop service maxRetries a audioBuffers trace) <> Thrown AfterRetries.
Proof.
  induction n as [|n IH]; intros a bufs trace Hn Ha Hsvc;
    rewrite attempt_loop_turn;
    (destruct (decide (a <= maxRetries)%nat); [|lia]);
    destruct (failure (service a)) as [e|] eqn:E; try discriminate.
  - destruct (decide (a < maxRetries)%nat); [lia|].
    simpl. intros [= ->]. now apply (Hsvc a).
  - destruct (decide (a < maxRetries)%nat).
    + apply IH; [lia | lia | exact Hsvc].
    + simpl. intros [= ->]. now apply (Hsvc a).
Qed.

(** X18.  The client fails with the missing-key error, without sending a
    request, exactly when it has no cached API client and the key is unset
    or empty.  In every other case the error it throws, if any, is one the
    service or the decoder raised: the fallback error after the retry loop
    is never thrown. *)
Theorem X18_errors_of_the_client (service : nat -> Attempt) (maxRetries : nat)
  (cached : bool) (API_KEY : option string) :
  (getGeminiClient cached API_KEY = Some ApiKeyNotSet <->
   cached = false /\ (API_KEY = None \/ API_KEY = Some EmptyString)) /\
  (getGeminiClient cached API_KEY = Some ApiKeyNotSet ->
   generateTextToSpeech service maxRetries cached API_KEY = ([], Thrown ApiKeyNotSet)) /\
  (getGeminiClient cached API_KEY = None ->
   (forall i, failure (service i) <> Some AfterRetries) ->
   snd (generateTextToSpeech service maxRetries cached API_KEY) <> Thrown AfterRetries).
Proof.
  split; [|split].
  - unfold getGeminiClient. destruct cached; [split; [discriminate | intros [H _]; discriminate H]|].
    destruct API_KEY as [k|]; [|split; auto].
    destruct (String.eqb_spec k "") as [->|Hne].
    + split; auto.
    + split; [discriminate|]. intros [_ [H|H]]; [discriminate H|].
      injection H as ->. congruence.
  - intros H. unfold generateTextToSpeech. now rewrite H.
  - intros H Hsvc. unfold generateTextToSpeech. rewrite H.
    eapply attempt_loop_never_falls_through; eauto. lia.
Qed.

Lemma X18_errors_of_the_client_witness :
  generateTextToSpeech (fun _ => mkAttempt [] None) 2 false (Some EmptyString)
  = ([], Thrown ApiKeyNotSet).
Proof.
  apply (X18_errors_of_the_client (fun _ => mkAttempt [] None) 2 false (Some EmptyString)).
  reflexivity.
Defined.

End RetryMore.

(** ** End of playback *)

Section EndedFacts.
Import Player.

(** X10.  When a narration source that is in the active set ends: if it
    was the only one left, the narration is marked as not playing, the
    caption highlight is cleared and the caption and scene clocks go back
    to 0; if other sources are still active, none of this changes.  A source
    that was not started as narration never changes it. *)
Theorem X10_finished_signal_on_last_source (id : nat) (a : App) (n : SourceNode) :
  id ∈ sourceNodesRef a -> sources a !! id = Some n ->
  sourceNodesRef (sourceEnded id a) = sourceNodesRef a ∖ {[id]} /\
  (forAudiobook n = true -> sourceNodesRef a = {[id]} ->
   isAudiobookPlaying (sourceEnded id a) = false /\
   currentHighlightedLineIndex (sourceEnded id a) = (-1)%Z /\
   currentHighlightedWordIndex (sourceEnded id a) = (-1)%Z /\
   audiobookScrollStartTimeRef (sourceEnded id a) = 0 /\
   lastSceneChangeTimestampRef (sourceEnded id a) = 0) /\
  (forAudiobook n = false \/ sourceNodesRef a <> {[id]} ->
   isAudiobookPlaying (sourceEnded id a) = isAudiobookPlaying a /\
   currentHighlightedLineIndex (sourceEnded id a) = currentHighlightedLineIndex a /\
   currentHighlightedWordIndex (sourceEnded id a) = currentHighlightedWordIndex a /\
   audiobookScrollStartTimeRef (sourceEnded id a) = audiobookScrollStartTimeRef a /\
   lastSceneChangeTimestampRef (sourceEnded id a) = lastSceneChangeTimestampRef a).
Proof.
  intros Hin Hn. split; [apply sourceEnded_live|].
  unfold sourceEnded. rewrite Hn.
  split.
  - intros Hab Hset. rewrite Hab, Hset.
    rewrite difference_diag_L, size_empty. simpl. repeat split.
  - intros [Hab|Hset].
    + rewrite Hab, andb_false_r. repeat split.
    + assert (size (sourceNodesRef a ∖ {[id]}) <> 0%nat) as Hsize.
      { intros Hz. apply size_empty_iff in Hz. apply Hset.
        apply set_eq. intros x. split.
        - intros Hx. destruct (decide (x = id)) as [->|Hne]; [set_solver|].
          exfalso. assert (x ∈ sourceNodesRef a ∖ {[id]}) as Hx' by set_solver.
          rewrite Hz in Hx'. set_solver.
        - intros Hx. apply elem_of_singleton in Hx. now subst. }
      rewrite bool_decide_eq_false_2 by exact Hsize. repeat split.
Qed.

(** The only chunk of a narration ends. *)
Lemma X10_finished_signal_on_last_source_witness :
  isAudiobookPlaying
    (sourceEnded 0 (playAudioBuffer 0 [] (mkBuffer 2 24000 1) true initialApp)) = false.
Proof.
  destruct (X10_finished_signal_on_last_source 0
              (playAudioBuffer 0 [] (mkBuffer 2 24000 1) true initialApp)
              (mkSource (mkBuffer 2 24000 1) (Qmax 0 0) true false true))
    as (_ & H & _).
  - vm_compute. reflexivity.
  - reflexivity.
  - apply H; [reflexivity | vm_compute; reflexivity].
Defined.

End EndedFacts.
